(** * Itinerary persistence service of App-viaggi

    A shallow embedding of the Express routes of [src/App.tsx]
    ([/api/itineraries] and [/api/itineraries/:id]) over the single SQLite
    table [itineraries], together with the two built-ins the routes rely on
    for the list-valued columns: [JSON.stringify] and [JSON.parse]. *)

From Stdlib Require Import NArith ZArith List String Ascii Bool Lia Sorted Permutation.
Import ListNotations.

Local Open Scope N_scope.

(** ** JavaScript strings

    A JavaScript string is a finite sequence of UTF-16 code units.  The
    TEXT columns of the table hold the strings as they were bound; the
    routes that read a row get its texts through the UTF-8 of the database
    file ([toWellFormed] below). *)

Definition jsstring := list N.

(** Code units of an ASCII literal of the source. *)
Definition lit (s : string) : jsstring :=
  List.map N_of_ascii (list_ascii_of_string s).

Fixpoint jsstring_eqb (a b : jsstring) : bool :=
  match a, b with
  | [], [] => true
  | x :: a', y :: b' => (x =? y) && jsstring_eqb a' b'
  | _, _ => false
  end.

(** ** JSON.stringify on an array of strings (ECMA-262, SerializeJSONArray
    and QuoteJSONString, no indentation) *)

Module JSON.

(** The code units with a name in the source text of the grammar. *)
Definition QUOTE : N := 34.      (* the double quote *)
Definition BACKSLASH : N := 92.
Definition SLASH : N := 47.
Definition COMMA : N := 44.
Definition LBRACKET : N := 91.
Definition RBRACKET : N := 93.

Definition is_lead (c : N) : bool := (0xD800 <=? c) && (c <=? 0xDBFF).
Definition is_trail (c : N) : bool := (0xDC00 <=? c) && (c <=? 0xDFFF).
Definition is_surrogate (c : N) : bool := (0xD800 <=? c) && (c <=? 0xDFFF).

(** Lower-case hexadecimal digit of a value below 16. *)
Definition hexdigit (d : N) : N :=
  if d <? 10 then 48 + d else 97 + (d - 10).

(** UnicodeEscape: backslash, [u], four lower-case hexadecimal digits. *)
Definition UnicodeEscape (c : N) : list N :=
  [BACKSLASH; 117;
   hexdigit ((c / 4096) mod 16); hexdigit ((c / 256) mod 16);
   hexdigit ((c / 16) mod 16); hexdigit (c mod 16)].

(** One code point that is a single code unit: the two-character escapes of
    the table, a [\u] escape for the other control characters and for a
    surrogate that is not part of a pair, the unit itself otherwise. *)
Definition quote_unit (c : N) : list N :=
  if c =? 8 then [BACKSLASH; 98]            (* \b *)
  else if c =? 9 then [BACKSLASH; 116]      (* \t *)
  else if c =? 10 then [BACKSLASH; 110]     (* \n *)
  else if c =? 12 then [BACKSLASH; 102]     (* \f *)
  else if c =? 13 then [BACKSLASH; 114]     (* \r *)
  else if c =? QUOTE then [BACKSLASH; QUOTE]
  else if c =? BACKSLASH then [BACKSLASH; BACKSLASH]
  else if (c <? 32) || is_surrogate c then UnicodeEscape c
  else [c].

(** The characters between the quotes.  A lead surrogate followed by a
    trail surrogate is one code point above U+FFFF and is copied as its two
    code units. *)
Fixpoint quote_units (s : jsstring) : list N :=
  match s with
  | [] => []
  | c :: s' =>
      match s' with
      | d :: s'' =>
          if is_lead c && is_trail d then c :: d :: quote_units s''
          else quote_unit c ++ quote_units s'
      | [] => quote_unit c
      end
  end.

Definition QuoteJSONString (s : jsstring) : jsstring :=
  QUOTE :: quote_units s ++ [QUOTE].

Fixpoint join (sep : N) (parts : list jsstring) : jsstring :=
  match parts with
  | [] => []
  | [p] => p
  | p :: rest => p ++ sep :: join sep rest
  end.

(** [JSON.stringify(a)] for an array [a] of strings. *)
Definition stringify (a : list jsstring) : jsstring :=
  LBRACKET :: join COMMA (List.map QuoteJSONString a) ++ [RBRACKET].

(** ** JSON.parse, on the texts that denote an array of strings

    The parser reads the text one code unit at a time.  Its result is
    [Some a] exactly when the text is, up to JSON white space, an array
    whose elements are string literals; on any other text the result is
    [None] (for [JSON.parse] either a SyntaxError, or a value that is not
    an array of strings). *)

Inductive pstate : Type :=
| PValue                                   (* before the opening bracket *)
| PFirst                                   (* after it: a string or the closing bracket *)
| PChars (acc : list jsstring) (cur : jsstring)
| PEscape (acc : list jsstring) (cur : jsstring)
| PUnicode (acc : list jsstring) (cur : jsstring) (k : nat) (v : N)
| PNext (acc : list jsstring)              (* after an element: comma or closing bracket *)
| PElem (acc : list jsstring)              (* after a comma: a string *)
| PEnd (acc : list jsstring).              (* after the closing bracket *)

Definition is_ws (c : N) : bool :=
  (c =? 9) || (c =? 10) || (c =? 13) || (c =? 32).

Definition hexval (c : N) : option N :=
  if (48 <=? c) && (c <=? 57) then Some (c - 48)
  else if (65 <=? c) && (c <=? 70) then Some (c - 55)
  else if (97 <=? c) && (c <=? 102) then Some (c - 87)
  else None.

Definition unescape (c : N) : option N :=
  if c =? QUOTE then Some QUOTE
  else if c =? BACKSLASH then Some BACKSLASH
  else if c =? SLASH then Some SLASH
  else if c =? 98 then Some 8
  else if c =? 102 then Some 12
  else if c =? 110 then Some 10
  else if c =? 114 then Some 13
  else if c =? 116 then Some 9
  else None.

Definition step (st : pstate) (c : N) : option pstate :=
  match st with
  | PValue =>
      if is_ws c then Some PValue
      else if c =? LBRACKET then Some PFirst else None
  | PFirst =>
      if is_ws c then Some PFirst
      else if c =? QUOTE then Some (PChars [] [])
      else if c =? RBRACKET then Some (PEnd []) else None
  | PChars acc cur =>
      if c =? QUOTE then Some (PNext (acc ++ [cur]))
      else if c =? BACKSLASH then Some (PEscape acc cur)
      else if c <? 32 then None
      else Some (PChars acc (cur ++ [c]))
  | PEscape acc cur =>
      if c =? 117 then Some (PUnicode acc cur 4 0)
      else match unescape c with
           | Some u => Some (PChars acc (cur ++ [u]))
           | None => None
           end
  | PUnicode acc cur k v =>
      match hexval c with
      | Some d =>
          match k with
          | S (S k') => Some (PUnicode acc cur (S k') (16 * v + d))
          | _ => Some (PChars acc (cur ++ [16 * v + d]))
          end
      | None => None
      end
  | PNext acc =>
      if is_ws c then Some (PNext acc)
      else if c =? COMMA then Some (PElem acc)
      else if c =? RBRACKET then Some (PEnd acc) else None
  | PElem acc =>
      if is_ws c then Some (PElem acc)
      else if c =? QUOTE then Some (PChars acc []) else None
  | PEnd acc =>
      if is_ws c then Some (PEnd acc) else None
  end.

Fixpoint run (st : pstate) (text : jsstring) : option (list jsstring) :=
  match text with
  | [] => match st with PEnd acc => Some acc | _ => None end
  | c :: text' =>
      match step st c with
      | Some st' => run st' text'
      | None => None
      end
  end.

Definition parse (text : jsstring) : option (list jsstring) := run PValue text.

End JSON.

(** ** Strings through the database file

    A string is bound as UTF-8 and read back from UTF-8.  A surrogate that
    is not part of a pair has no UTF-8 encoding: it comes back as U+FFFD.
    The two functions are [String.prototype.isWellFormed] and
    [String.prototype.toWellFormed]. *)

Definition REPLACEMENT : N := 0xFFFD.

(** [String.prototype.isWellFormed]: no surrogate outside a pair. *)
Fixpoint isWellFormed (s : jsstring) : bool :=
  match s with
  | [] => true
  | c :: s' =>
      if JSON.is_lead c
      then match s' with
           | d :: s'' => JSON.is_trail d && isWellFormed s''
           | [] => false
           end
      else negb (JSON.is_trail c) && isWellFormed s'
  end.

Fixpoint toWellFormed (s : jsstring) : jsstring :=
  match s with
  | [] => []
  | c :: s' =>
      if JSON.is_lead c
      then match s' with
           | d :: s'' =>
               if JSON.is_trail d then c :: d :: toWellFormed s''
               else REPLACEMENT :: toWellFormed s'
           | [] => [REPLACEMENT]
           end
      else if JSON.is_trail c then REPLACEMENT :: toWellFormed s'
      else c :: toWellFormed s'
  end.

(** ** The JSON grammar (ECMA-404)

    [valid text] tells whether [text] is a JSON text: white space, one
    value, white space.  The recogniser reads one code unit at a time and
    keeps the stack of the arrays and objects it is inside of. *)

Module JSONGrammar.
Import JSON.

Definition LBRACE : N := 123.
Definition RBRACE : N := 125.
Definition COLON : N := 58.

Inductive container : Type := InArray | InObject.

(** A string is the name of a member or a value. *)
Inductive role : Type := AsKey | AsValue.

Inductive mode : Type :=
| Value (first : bool)          (* a value is due; [first]: right after the opening bracket *)
| Key (first : bool)            (* a member name is due; [first]: right after the opening brace *)
| Colon                         (* after a member name *)
| After                         (* after a value *)
| Chars (r : role)
| Escape (r : role)
| Unicode (r : role) (k : nat)
| Minus                         (* after the sign of a number *)
| Zero                          (* after the integer part 0 *)
| Int                           (* inside an integer part that starts with 1-9 *)
| Point                         (* after the decimal point *)
| Frac                          (* inside the fraction *)
| Exp                           (* after e or E *)
| ExpSign                       (* after the sign of the exponent *)
| ExpDigits                     (* inside the exponent *)
| Literal (rest : list N).      (* inside true, false or null: what is still to come *)

Definition is_digit (c : N) : bool := (48 <=? c) && (c <=? 57).
Definition is_e (c : N) : bool := (c =? 101) || (c =? 69).

(** What may follow a value: white space, a comma, or the closing of the
    array or object the value is in. *)
Definition after (stack : list container) (c : N) : option (mode * list container) :=
  if is_ws c then Some (After, stack)
  else match stack with
       | InArray :: up =>
           if c =? COMMA then Some (Value false, stack)
           else if c =? RBRACKET then Some (After, up) else None
       | InObject :: up =>
           if c =? COMMA then Some (Key false, stack)
           else if c =? RBRACE then Some (After, up) else None
       | [] => None
       end.

Definition step (m : mode) (stack : list container) (c : N)
  : option (mode * list container) :=
  match m with
  | Value first =>
      if is_ws c then Some (Value first, stack)
      else if c =? LBRACKET then Some (Value true, InArray :: stack)
      else if c =? LBRACE then Some (Key true, InObject :: stack)
      else if c =? QUOTE then Some (Chars AsValue, stack)
      else if c =? 45 then Some (Minus, stack)
      else if c =? 48 then Some (Zero, stack)
      else if is_digit c then Some (Int, stack)
      else if c =? 116 then Some (Literal (lit "rue"), stack)
      else if c =? 102 then Some (Literal (lit "alse"), stack)
      else if c =? 110 then Some (Literal (lit "ull"), stack)
      else if first && (c =? RBRACKET)
           then match stack with InArray :: up => Some (After, up) | _ => None end
      else None
  | Key first =>
      if is_ws c then Some (Key first, stack)
      else if c =? QUOTE then Some (Chars AsKey, stack)
      else if first && (c =? RBRACE)
           then match stack with InObject :: up => Some (After, up) | _ => None end
      else None
  | Colon =>
      if is_ws c then Some (Colon, stack)
      else if c =? COLON then Some (Value false, stack) else None
  | After => after stack c
  | Chars r =>
      if c =? QUOTE
      then Some (match r with AsKey => Colon | AsValue => After end, stack)
      else if c =? BACKSLASH then Some (Escape r, stack)
      else if c <? 32 then None
      else Some (Chars r, stack)
  | Escape r =>
      if c =? 117 then Some (Unicode r 4, stack)
      else match unescape c with
           | Some _ => Some (Chars r, stack)
           | None => None
           end
  | Unicode r k =>
      match hexval c with
      | Some _ =>
          match k with
          | S (S k') => Some (Unicode r (S k'), stack)
          | _ => Some (Chars r, stack)
          end
      | None => None
      end
  | Minus =>
      if c =? 48 then Some (Zero, stack)
      else if is_digit c then Some (Int, stack) else None
  | Zero =>
      if c =? 46 then Some (Point, stack)
      else if is_e c then Some (Exp, stack)
      else after stack c
  | Int =>
      if is_digit c then Some (Int, stack)
      else if c =? 46 then Some (Point, stack)
      else if is_e c then Some (Exp, stack)
      else after stack c
  | Point => if is_digit c then Some (Frac, stack) else None
  | Frac =>
      if is_digit c then Some (Frac, stack)
      else if is_e c then Some (Exp, stack)
      else after stack c
  | Exp =>
      if (c =? 43) || (c =? 45) then Some (ExpSign, stack)
      else if is_digit c then Some (ExpDigits, stack) else None
  | ExpSign => if is_digit c then Some (ExpDigits, stack) else None
  | ExpDigits =>
      if is_digit c then Some (ExpDigits, stack) else after stack c
  | Literal [] => after stack c
  | Literal (x :: rest) => if c =? x then Some (Literal rest, stack) else None
  end.

(** At the end of the text a value must be complete and nothing open. *)
Definition complete (m : mode) (stack : list container) : bool :=
  match stack with
  | [] =>
      match m with
      | After | Zero | Int | Frac | ExpDigits | Literal [] => true
      | _ => false
      end
  | _ => false
  end.

Fixpoint run (m : mode) (stack : list container) (text : jsstring) : bool :=
  match text with
  | [] => complete m stack
  | c :: text' =>
      match step m stack c with
      | Some (m', stack') => run m' stack' text'
      | None => false
      end
  end.

Definition valid (text : jsstring) : bool := run (Value false) [] text.

End JSONGrammar.

(** ** JSON.parse on any text

    What [JSON.parse] returns: an array of strings, or another value,
    which is carried as the text it was parsed from; on a text that is not
    JSON it throws ([None]). *)

Inductive parsed : Type :=
| Strings (a : list jsstring)
| Other (text : jsstring).

Definition JSON_parse (text : jsstring) : option parsed :=
  match JSON.parse text with
  | Some a => Some (Strings a)
  | None => if JSONGrammar.valid text then Some (Other text) else None
  end.

(** ** Request bodies, rows and records *)

(** A key of [req.body]: missing, so that destructuring binds
    [undefined]; [null]; or a value of the type the page sends. *)
Inductive field (A : Type) : Type :=
| undefined
| null
| present (a : A).
Arguments undefined {A}.
Arguments null {A}.
Arguments present {A} a.

(** [req.body] of a POST.  The route checks nothing: every key may be
    missing or [null]. *)

Module Body.
Record t : Type := mk {
  title : field jsstring;
  destination : field jsstring;
  duration : field Z;
  budget : field jsstring;
  type : field jsstring;
  interests : field (list jsstring);
  activities : field (list jsstring);
  content : field jsstring
}.
End Body.

(** A row of the table [itineraries].  No column but the key is declared
    NOT NULL; better-sqlite3 binds [undefined] and [null] as NULL, here
    [None].  The default of [created_at], CURRENT_TIMESTAMP, has a
    resolution of one second: the column is the number of seconds on the
    clock of the database at the insertion. *)

Module Row.
Record t : Type := mk {
  id : jsstring;
  title : option jsstring;
  destination : option jsstring;
  duration : option Z;
  budget : option jsstring;
  type : option jsstring;
  interests : option jsstring;
  activities : option jsstring;
  content : option jsstring;
  created_at : Z
}.
End Row.

(** The object a GET route answers with: the row as it is read, NULL as
    [null] (here [None]), with the two encoded columns replaced by what
    [JSON.parse] returns for them. *)

Module Itinerary.
Record t : Type := mk {
  id : jsstring;
  title : option jsstring;
  destination : option jsstring;
  duration : option Z;
  budget : option jsstring;
  type : option jsstring;
  interests : parsed;
  activities : parsed;
  content : option jsstring;
  created_at : Z
}.
End Itinerary.

(** ** Exceptions and results *)

Inductive exn : Type :=
| SqliteError_CONSTRAINT_PRIMARYKEY
| SyntaxError.

Inductive result (A : Type) : Type :=
| Ok (a : A)
| Throw (e : exn).
Arguments Ok {A} a.
Arguments Throw {A} e.

Definition bind {A B : Type} (m : result A) (k : A -> result B) : result B :=
  match m with
  | Ok a => k a
  | Throw e => Throw e
  end.

Notation "x <- m ;; k" := (bind m (fun x => k))
  (at level 61, m at next level, right associativity).

(** [rows.map(f)] where [f] may throw: the first exception aborts. *)
Fixpoint mapM {A B : Type} (f : A -> result B) (l : list A) : result (list B) :=
  match l with
  | [] => Ok []
  | a :: l' => b <- f a ;; bs <- mapM f l' ;; Ok (b :: bs)
  end.

(** ** The table

    The rows of the table in the order of their rowids, which is the order
    of insertion. *)

Definition table := list Row.t.

Local Open Scope Z_scope.

(** INSERT INTO itineraries: the primary key rejects a second row with the
    same id. *)
Definition insert (r : Row.t) (db : table) : result table :=
  if existsb (fun x => jsstring_eqb (Row.id x) (Row.id r)) db
  then Throw SqliteError_CONSTRAINT_PRIMARYKEY
  else Ok (db ++ [r]).

(** ORDER BY created_at DESC.  The sorter of SQLite keeps rows that
    compare equal in the order of the scan, the order of the rowids. *)
Fixpoint order_insert (r : Row.t) (sorted : list Row.t) : list Row.t :=
  match sorted with
  | [] => [r]
  | x :: rest =>
      if Row.created_at r <? Row.created_at x
      then x :: order_insert r rest
      else r :: x :: rest
  end.

Fixpoint order_by_created_at_desc (rows : list Row.t) : list Row.t :=
  match rows with
  | [] => []
  | r :: rows' => order_insert r (order_by_created_at_desc rows')
  end.

(** SELECT * FROM itineraries ORDER BY created_at DESC *)
Definition selectAll (db : table) : list Row.t :=
  order_by_created_at_desc db.

(** SELECT * FROM itineraries WHERE id = ? *)
Definition selectById (id : jsstring) (db : table) : option Row.t :=
  find (fun r => jsstring_eqb (Row.id r) id) db.

Definition set_title (title : option jsstring) (r : Row.t) : Row.t :=
  Row.mk (Row.id r) title (Row.destination r) (Row.duration r)
         (Row.budget r) (Row.type r) (Row.interests r) (Row.activities r)
         (Row.content r) (Row.created_at r).

(** UPDATE itineraries SET title = ? WHERE id = ? *)
Definition updateTitle (id : jsstring) (title : option jsstring) (db : table) : table :=
  List.map (fun r => if jsstring_eqb (Row.id r) id then set_title title r else r) db.

(** DELETE FROM itineraries WHERE id = ? *)
Definition deleteById (id : jsstring) (db : table) : table :=
  filter (fun r => negb (jsstring_eqb (Row.id r) id)) db.

(** ** Responses *)

Inductive body : Type :=
| JsonId (id : jsstring)                  (* { id } *)
| JsonRows (rows : list Itinerary.t)
| JsonRow (row : Itinerary.t)
| JsonError (message : jsstring)          (* { error: "Not found" } *)
| JsonSuccess                             (* { success: true } *)
| Uncaught (e : exn).                     (* the default error handler of Express *)

Record response : Type := mkResponse { status : Z; payload : body }.

Definition res_json (b : body) : response := mkResponse 200 b.
Definition res_status_json (code : Z) (b : body) : response := mkResponse code b.
Definition res_uncaught (e : exn) : response := mkResponse 500 (Uncaught e).

(** The signals of the specification on the responses: a ValidationError is
    a client error other than 404, NotFound is 404. *)
Definition signals_ValidationError (r : response) : bool :=
  (400 <=? status r) && (status r <? 500) && negb (status r =? 404).
Definition signals_NotFound (r : response) : bool := status r =? 404.

(** ** The routes *)

(** Template literal interpolation of a string, [undefined] or [null]. *)
Definition ToString (v : field jsstring) : jsstring :=
  match v with
  | present s => s
  | undefined => lit "undefined"
  | null => lit "null"
  end.

(** [v || d] for a string, [undefined] or [null]: only a non-empty string
    is truthy. *)
Definition or_else (v : field jsstring) (d : jsstring) : jsstring :=
  match v with
  | present (c :: s) => c :: s
  | _ => d
  end.

Definition default_title (destination : field jsstring) : jsstring :=
  (lit "Viaggio a " ++ ToString destination)%list.

(** What better-sqlite3 binds for an argument of [stmt.run]. *)
Definition bound {A : Type} (v : field A) : option A :=
  match v with
  | present a => Some a
  | _ => None
  end.

(** [JSON.stringify(v)]: [undefined] for [undefined], which is then bound
    as NULL. *)
Definition JSON_stringify (v : field (list jsstring)) : option jsstring :=
  match v with
  | undefined => None
  | null => Some (lit "null")
  | present a => Some (JSON.stringify a)
  end.

(** What [JSON.parse] returns for the column [JSON.stringify(v)] was bound
    to: [undefined] is bound as NULL, which is read as [null]. *)
Definition parsed_of (v : field (list jsstring)) : parsed :=
  match v with
  | present a => Strings a
  | _ => Other (lit "null")
  end.

(** The row [stmt.run] binds in the POST route. *)
Definition new_row (id : jsstring) (now : Z) (b : Body.t) : Row.t :=
  Row.mk id
         (Some (or_else (Body.title b) (default_title (Body.destination b))))
         (bound (Body.destination b)) (bound (Body.duration b))
         (bound (Body.budget b)) (bound (Body.type b))
         (JSON_stringify (Body.interests b))
         (JSON_stringify (Body.activities b))
         (bound (Body.content b)) now.

(** POST /api/itineraries.  [uuid] is what [uuidv4()] returns and [now]
    the clock of the database, in seconds. *)
Definition post_itineraries (uuid : jsstring) (now : Z) (b : Body.t) (db : table)
  : response * table :=
  let id := uuid in
  match insert (new_row id now b) db with
  | Ok db' => (res_json (JsonId id), db')
  | Throw e => (res_uncaught e, db)
  end.

(** A TEXT column as the statement returns it. *)
Definition read_text (column : option jsstring) : option jsstring :=
  option_map toWellFormed column.

(** [JSON.parse(row.interests as string)]: a NULL column is [null], which
    [JSON.parse] turns into the text [null]. *)
Definition parse_column (column : option jsstring) : option parsed :=
  JSON_parse (match read_text column with
              | Some text => text
              | None => lit "null"
              end).

(** The object literal of the GET routes: the row spread, then the two
    columns parsed, [interests] first.  The id is one of [uuidv4()]: it is
    ASCII and comes back as it is. *)
Definition decode (row : Row.t) : result Itinerary.t :=
  match parse_column (Row.interests row) with
  | None => Throw SyntaxError
  | Some interests =>
      match parse_column (Row.activities row) with
      | None => Throw SyntaxError
      | Some activities =>
          Ok (Itinerary.mk (Row.id row) (read_text (Row.title row))
                (read_text (Row.destination row)) (Row.duration row)
                (read_text (Row.budget row)) (read_text (Row.type row))
                interests activities (read_text (Row.content row))
                (Row.created_at row))
      end
  end.

(** GET /api/itineraries *)
Definition get_itineraries (db : table) : response :=
  let rows := selectAll db in
  match mapM decode rows with
  | Ok records => res_json (JsonRows records)
  | Throw e => res_uncaught e
  end.

(** GET /api/itineraries/:id *)
Definition get_itinerary (id : jsstring) (db : table) : response :=
  match selectById id db with
  | None => res_status_json 404 (JsonError (lit "Not found"))
  | Some row =>
      match decode row with
      | Ok record => res_json (JsonRow record)
      | Throw e => res_uncaught e
      end
  end.

(** PATCH /api/itineraries/:id.  [title] is what is bound: [None] for a
    body whose title is missing or [null]. *)
Definition patch_itinerary (id : jsstring) (title : option jsstring) (db : table)
  : response * table :=
  (res_json JsonSuccess, updateTitle id title db).

(** DELETE /api/itineraries/:id *)
Definition delete_itinerary (id : jsstring) (db : table) : response * table :=
  (res_json JsonSuccess, deleteById id db).

(** ** The server as a transition system *)

Inductive request : Type :=
| POST (uuid : jsstring) (now : Z) (b : Body.t)
| GET_all
| GET_one (id : jsstring)
| PATCH (id : jsstring) (title : option jsstring)
| DELETE (id : jsstring).

Definition handle (rq : request) (db : table) : response * table :=
  match rq with
  | POST uuid now b => post_itineraries uuid now b db
  | GET_all => (get_itineraries db, db)
  | GET_one id => (get_itinerary id db, db)
  | PATCH id title => patch_itinerary id title db
  | DELETE id => delete_itinerary id db
  end.

(** The tables the routes can produce from the empty table. *)
Inductive reachable : table -> Prop :=
| reachable_empty : reachable []
| reachable_step : forall rq db,
    reachable db -> reachable (snd (handle rq db)).

Fixpoint serve (rqs : list request) (db : table) : table :=
  match rqs with
  | [] => db
  | rq :: rqs' => serve rqs' (snd (handle rq db))
  end.

(** Both encoded columns of the row are read without a failure of
    [JSON.parse]. *)
Definition encoded (r : Row.t) : Prop :=
  exists i a, parse_column (Row.interests r) = Some i
              /\ parse_column (Row.activities r) = Some a.

Definition well_encoded (db : table) : Prop := Forall encoded db.

(** The column is the text of an array of strings. *)
Definition array_column (column : option jsstring) : Prop :=
  exists text a, column = Some text /\ JSON.parse text = Some a.

(** The column is NULL or a JSON text. *)
Definition json_column (column : option jsstring) : Prop :=
  column = None \/ exists text, column = Some text /\ JSONGrammar.valid text = true.

(** The column is one the POST route writes in this model: NULL, the text
    [null], or the encoding of an array of strings. *)
Definition written_column (column : option jsstring) : Prop :=
  column = None \/ column = Some (lit "null")
  \/ exists a, column = Some (JSON.stringify a).

(** The recogniser of the grammar while [JSON.parse] of arrays of strings
    is in the state [st]. *)
Definition grammar_state (st : JSON.pstate)
  : JSONGrammar.mode * list JSONGrammar.container :=
  match st with
  | JSON.PValue => (JSONGrammar.Value false, [])
  | JSON.PFirst => (JSONGrammar.Value true, [JSONGrammar.InArray])
  | JSON.PChars _ _ => (JSONGrammar.Chars JSONGrammar.AsValue, [JSONGrammar.InArray])
  | JSON.PEscape _ _ => (JSONGrammar.Escape JSONGrammar.AsValue, [JSONGrammar.InArray])
  | JSON.PUnicode _ _ k _ =>
      (JSONGrammar.Unicode JSONGrammar.AsValue k, [JSONGrammar.InArray])
  | JSON.PNext _ => (JSONGrammar.After, [JSONGrammar.InArray])
  | JSON.PElem _ => (JSONGrammar.Value false, [JSONGrammar.InArray])
  | JSON.PEnd _ => (JSONGrammar.After, [])
  end.

(** The primary key: no two rows have the same id. *)
Definition unique_ids (db : table) : Prop := NoDup (List.map Row.id db).

(** [a] was inserted at an earlier second than [b]. *)
Definition older (a b : Row.t) : Prop := Row.created_at a < Row.created_at b.

(** [b] was not inserted at a later second than [a]. *)
Definition not_newer (a b : Row.t) : Prop := Row.created_at b <= Row.created_at a.

(** ** Sample data

    The request of the scenario of the specification, two more bodies, a
    body that lacks both required fields, one without the two arrays, one
    whose destination is a lone surrogate, and three identifiers in the
    format of [uuidv4()]. *)

Definition tokyo : Body.t :=
  Body.mk undefined (present (lit "Tokyo")) (present 5) (present (lit "medio"))
          (present (lit "cultural")) (present [lit "Arte"]) (present [lit "Musei"])
          (present (lit "# Day 1...")).

Definition lisbona : Body.t :=
  Body.mk (present (lit "Fine settimana")) (present (lit "Lisbona")) (present 3)
          (present (lit "economico")) (present (lit "foodie"))
          (present [lit "Gastronomia"; lit "Storia"]) (present [])
          (present (lit "# Giorno 1")).

Definition oslo : Body.t :=
  Body.mk (present []) (present (lit "Oslo")) (present 7) (present (lit "lusso"))
          (present (lit "relax")) (present []) (present [lit "Escursioni"])
          (present (lit "# Giorno 1")).

Definition no_required_fields : Body.t :=
  Body.mk undefined undefined (present 3) (present (lit "medio"))
          (present (lit "cultural")) (present []) (present []) undefined.

Definition no_arrays : Body.t :=
  Body.mk undefined (present (lit "Tokyo")) (present 5) (present (lit "medio"))
          (present (lit "cultural")) undefined undefined
          (present (lit "# Day 1...")).

Definition lone_surrogate : Body.t :=
  Body.mk (present (lit "Sorpresa")) (present [0xD83D%N]) (present 2)
          (present (lit "medio")) (present (lit "relax")) (present []) (present [])
          (present (lit "# Giorno 1")).

Definition uuid_a : jsstring := lit "1b9d6bcd-bbfd-4b2d-9b5d-ab8dfbbd4bed".
Definition uuid_b : jsstring := lit "9c5b94b1-35ad-49bb-b118-8e8fc24abf80".
Definition uuid_c : jsstring := lit "f47ac10b-58cc-4372-a567-0e02b2c3d479".

(** Seconds on the clock of the database. *)
Definition noon : Z := 1700000000.

(** ** Relations between rows and between records *)

(** [r'] is [r] up to its title. *)
Definition same_but_title (r r' : Row.t) : Prop :=
  Row.id r' = Row.id r
  /\ Row.destination r' = Row.destination r
  /\ Row.duration r' = Row.duration r
  /\ Row.budget r' = Row.budget r
  /\ Row.type r' = Row.type r
  /\ Row.interests r' = Row.interests r
  /\ Row.activities r' = Row.activities r
  /\ Row.content r' = Row.content r
  /\ Row.created_at r' = Row.created_at r.

(** In an answer of the list route, [b] may follow [a]. *)
Definition may_follow (a b : Itinerary.t) : Prop :=
  Itinerary.created_at b <= Itinerary.created_at a.

Definition record_set_title (title : option jsstring) (r : Itinerary.t) : Itinerary.t :=
  Itinerary.mk (Itinerary.id r) title (Itinerary.destination r) (Itinerary.duration r)
    (Itinerary.budget r) (Itinerary.type r) (Itinerary.interests r)
    (Itinerary.activities r) (Itinerary.content r) (Itinerary.created_at r).

(** Every text of the option is well-formed UTF-16: it comes back from the
    database as it is. *)
Definition survives (column : option jsstring) : Prop :=
  forall text, column = Some text -> isWellFormed text = true.

(** ** The page

    The state and the handlers of the component [App] that talk to the
    routes, and the two handlers of the chips of the form. *)

(** A number of the page: an integer, or the [NaN] that [parseInt] returns
    for an emptied duration field. *)
Inductive jsnumber : Type :=
| NaN
| Num (z : Z).

Module TripDetails.
(** The strings and the number are as the compiler has them while the
    form alone writes them; at run time they are whatever the server
    answered, which is [null] (here [None]) for a NULL column. *)
Record t : Type := mk {
  destination : option jsstring;
  duration : option jsnumber;
  budget : option jsstring;
  type : option jsstring;
  interests : list jsstring;
  activities : list jsstring
}.
End TripDetails.

Definition INTERESTS : list jsstring :=
  [lit "Gastronomia"; lit "Arte"; lit "Natura"; lit "Avventura";
   lit "Vita Notturna"; lit "Shopping"; lit "Storia"; lit "Relax"].

Definition ACTIVITY_TYPES : list jsstring :=
  [lit "Visite Guidate"; lit "Escursioni"; lit "Corsi di Cucina";
   lit "Esplorazione Indipendente"; lit "Sport Acquatici"; lit "Musei"].

(** [a.includes(x)] on an array of strings. *)
Definition includes (a : list jsstring) (x : jsstring) : bool :=
  existsb (fun i => jsstring_eqb i x) a.

(** The new array of both chip handlers:
    [a.includes(x) ? a.filter(i => i !== x) : [...a, x]]. *)
Definition toggle (x : jsstring) (a : list jsstring) : list jsstring :=
  if includes a x
  then filter (fun i => negb (jsstring_eqb i x)) a
  else (a ++ [x])%list.

Definition toggleInterest (interest : jsstring) (prev : TripDetails.t) : TripDetails.t :=
  TripDetails.mk (TripDetails.destination prev) (TripDetails.duration prev)
    (TripDetails.budget prev) (TripDetails.type prev)
    (toggle interest (TripDetails.interests prev))
    (TripDetails.activities prev).

Definition toggleActivity (activity : jsstring) (prev : TripDetails.t) : TripDetails.t :=
  TripDetails.mk (TripDetails.destination prev) (TripDetails.duration prev)
    (TripDetails.budget prev) (TripDetails.type prev)
    (TripDetails.interests prev)
    (toggle activity (TripDetails.activities prev)).

(** The chips clicked one after the other, the first of the list first. *)
Definition clickInterests (clicks : list jsstring) (d : TripDetails.t) : TripDetails.t :=
  fold_left (fun prev interest => toggleInterest interest prev) clicks d.

Definition clickActivities (clicks : list jsstring) (d : TripDetails.t) : TripDetails.t :=
  fold_left (fun prev activity => toggleActivity activity prev) clicks d.

Module App.
(** The [useState] cells the handlers below read or write.  The cells
    [locations] and [copySuccess] are touched by none of them. *)
Record state : Type := mk {
  details : TripDetails.t;
  itinerary : option jsstring;
  loading : bool;
  error : option jsstring;
  savedTrips : list Itinerary.t;
  showSaved : bool;
  sharedTripId : option jsstring
}.

Definition initial : state :=
  mk (TripDetails.mk (Some []) (Some (Num 3)) (Some (lit "medio"))
        (Some (lit "cultural")) [] [])
     None false None [] false None.

Definition setDetails (v : TripDetails.t) (s : state) : state :=
  mk v (itinerary s) (loading s) (error s) (savedTrips s) (showSaved s) (sharedTripId s).
Definition setItinerary (v : option jsstring) (s : state) : state :=
  mk (details s) v (loading s) (error s) (savedTrips s) (showSaved s) (sharedTripId s).
Definition setLoading (v : bool) (s : state) : state :=
  mk (details s) (itinerary s) v (error s) (savedTrips s) (showSaved s) (sharedTripId s).
Definition setError (v : option jsstring) (s : state) : state :=
  mk (details s) (itinerary s) (loading s) v (savedTrips s) (showSaved s) (sharedTripId s).
Definition setSavedTrips (v : list Itinerary.t) (s : state) : state :=
  mk (details s) (itinerary s) (loading s) (error s) v (showSaved s) (sharedTripId s).
Definition setShowSaved (v : bool) (s : state) : state :=
  mk (details s) (itinerary s) (loading s) (error s) (savedTrips s) v (sharedTripId s).
Definition setSharedTripId (v : option jsstring) (s : state) : state :=
  mk (details s) (itinerary s) (loading s) (error s) (savedTrips s) (showSaved s) v.
End App.

(** *** fetch

    [fetch] resolves with the answer of the route when the request reaches
    it ([online]); otherwise ([None]) it rejects, or resolves with an error
    page of the middleware, as for a body over the limit of
    [express.json()]: the handlers below end up in their [catch] either
    way.  An id travels in the path of the request as it is; that holds for
    the ids that are one plain path segment, as those of [uuidv4()] are. *)

Definition plain_unit (c : N) : bool :=
  ((48 <=? c) && (c <=? 57) || (65 <=? c) && (c <=? 90) || (97 <=? c) && (c <=? 122)
   || (c =? 45) || (c =? 95) || (c =? 126))%N.

Definition plain_id (id : jsstring) : bool :=
  match id with
  | [] => false
  | _ => forallb plain_unit id
  end.

Definition fetch (online : bool) (rq : request) (db : table) : option response * table :=
  if online then (Some (fst (handle rq db)), snd (handle rq db)) else (None, db).

(** [res.ok] *)
Definition ok (res : response) : bool := (200 <=? status res) && (status res <=? 299).

(** [res.json()]: the error page of Express is not JSON and the promise
    rejects ([None]). *)
Definition json (res : response) : option body :=
  match payload res with
  | Uncaught _ => None
  | data => Some data
  end.

(** [data.id], [undefined] (here [None]) on an object without that key. *)
Definition data_id (data : body) : option jsstring :=
  match data with
  | JsonId id => Some id
  | JsonRow row => Some (Itinerary.id row)
  | _ => None
  end.

(** Template literal interpolation of a value that may be [null]. *)
Definition ToString_null (v : option jsstring) : jsstring :=
  match v with
  | Some s => s
  | None => lit "null"
  end.

(** The details [setDetails] is given for a record of the server, when the
    record has arrays of strings as interests and activities. *)
Definition details_of (data : Itinerary.t) : option TripDetails.t :=
  match Itinerary.interests data, Itinerary.activities data with
  | Strings interests, Strings activities =>
      Some (TripDetails.mk (Itinerary.destination data)
              (option_map Num (Itinerary.duration data))
              (Itinerary.budget data) (Itinerary.type data)
              interests activities)
  | _, _ => None
  end.

(** [fetchSavedTrips]: a failure is logged and the cell keeps its value.
    The list route answers with an array or with the error page; on
    another JSON value, which it never sends, the model keeps the cell. *)
Definition fetchSavedTrips (online : bool) (s : App.state) (db : table) : App.state :=
  match fst (fetch online GET_all db) with
  | None => s
  | Some res =>
      match json res with
      | None => s
      | Some (JsonRows data) => App.setSavedTrips data s
      | Some _ => s
      end
  end.

(** [fetchTrip].  The route answers with a record, with 404 or with the
    error page; on another JSON value under a 2xx status, which it never
    sends, the model takes the branch of the failure.  On a record whose
    interests or activities are not arrays of strings, as no trip saved
    from the page is, the handler writes its three cells all the same; the
    value it gives to [details] is none of [TripDetails.t] (the page fails
    to render it), and the model leaves that one cell as it was. *)
Definition fetchTrip (online : bool) (id : jsstring) (s : App.state) (db : table)
  : App.state :=
  let failed := App.setError (Some (lit "Impossibile caricare l'itinerario condiviso.")) in
  let s1 := App.setLoading true s in
  let s2 :=
    match fst (fetch online (GET_one id) db) with
    | None => failed s1
    | Some res =>
        if negb (ok res) then failed s1
        else match json res with
             | Some (JsonRow data) =>
                 match details_of data with
                 | Some details =>
                     App.setSharedTripId (Some id)
                       (App.setDetails details
                          (App.setItinerary (Itinerary.content data) s1))
                 | None =>
                     App.setSharedTripId (Some id)
                       (App.setItinerary (Itinerary.content data) s1)
                 end
             | _ => failed s1
             end
    end in
  App.setLoading false s2.

(** A cell that holds a value or [null], as a key of the posted body. *)
Definition posted {A : Type} (v : option A) : field A :=
  match v with
  | Some a => present a
  | None => null
  end.

(** [JSON.stringify] writes [NaN] as [null]. *)
Definition posted_number (v : option jsnumber) : field Z :=
  match v with
  | Some (Num z) => present z
  | _ => null
  end.

(** The body [saveTrip] posts: the details spread, then [content] and
    [title]. *)
Definition saveTrip_body (s : App.state) (content : jsstring) : Body.t :=
  let d := App.details s in
  Body.mk (present (lit "Viaggio a " ++ ToString_null (TripDetails.destination d))%list)
    (posted (TripDetails.destination d)) (posted_number (TripDetails.duration d))
    (posted (TripDetails.budget d)) (posted (TripDetails.type d))
    (present (TripDetails.interests d)) (present (TripDetails.activities d))
    (present content).

(** [saveTrip].  [uuid] and [now] are the id and the second the server
    draws for the POST; [online'] is the network at the time of the
    listing that follows. *)
Definition saveTrip (uuid : jsstring) (now : Z) (online online' : bool)
    (s : App.state) (db : table) : App.state * table :=
  match App.itinerary s with
  | None | Some [] => (s, db)
  | Some content =>
      let failed := App.setError (Some (lit "Errore durante il salvataggio.")) in
      let (res, db') := fetch online (POST uuid now (saveTrip_body s content)) db in
      match res with
      | None => (failed s, db')
      | Some res =>
          match json res with
          | None => (failed s, db')
          | Some data =>
              (fetchSavedTrips online' (App.setSharedTripId (data_id data) s) db', db')
          end
      end
  end.

(** [deleteTrip]: the answer of the DELETE is not looked at. *)
Definition deleteTrip (online online' : bool) (id : jsstring)
    (s : App.state) (db : table) : App.state * table :=
  let (res, db') := fetch online (DELETE id) db in
  match res with
  | None => (s, db')
  | Some _ => (fetchSavedTrips online' s db', db')
  end.

(** The button of a saved trip that opens it.  On a trip whose interests
    or activities are not arrays of strings, the model leaves the cell
    [details] as it was, as in [fetchTrip]. *)
Definition openSavedTrip (trip : Itinerary.t) (s : App.state) : App.state :=
  match details_of trip with
  | Some details =>
      App.setShowSaved false
        (App.setSharedTripId (Some (Itinerary.id trip))
           (App.setDetails details
              (App.setItinerary (Itinerary.content trip) s)))
  | None =>
      App.setShowSaved false
        (App.setSharedTripId (Some (Itinerary.id trip))
           (App.setItinerary (Itinerary.content trip) s))
  end.

(** The effect run once when the page is mounted; [trip] is what
    [params.get('trip')] returns.  The two requests only read, and write
    different cells. *)
Definition mount (online online' : bool) (trip : option jsstring)
    (s : App.state) (db : table) : App.state :=
  let s1 := match trip with
            | Some (c :: id) => fetchTrip online (c :: id) s db
            | _ => s
            end in
  fetchSavedTrips online' s1 db.

(** A page that shows a generated itinerary for Tokyo. *)
Definition tokyo_page : App.state :=
  App.mk (TripDetails.mk (Some (lit "Tokyo")) (Some (Num 5)) (Some (lit "medio"))
            (Some (lit "cultural")) [lit "Arte"] [lit "Musei"])
         (Some (lit "# Day 1...")) false None [] false None.

(** * Properties *)

(** ** The encoding of arrays of strings *)

Module JSONFacts.
Import JSON.
Local Open Scope N_scope.

Lemma run_cons st c text :
  run st (c :: text) =
  match step st c with Some st' => run st' text | None => None end.
Proof. reflexivity. Qed.

Lemma run_step st c st' text :
  step st c = Some st' -> run st (c :: text) = run st' text.
Proof. intros H. now rewrite run_cons, H. Qed.

Lemma hexval_hexdigit d : d < 16 -> hexval (hexdigit d) = Some d.
Proof.
  intros H. unfold hexval, hexdigit.
  destruct (N.ltb_spec d 10) as [Hd | Hd].
  - replace ((48 <=? 48 + d) && (48 + d <=? 57)) with true.
    + f_equal. lia.
    + symmetry. apply andb_true_iff. split; apply N.leb_le; lia.
  - replace ((48 <=? 97 + (d - 10)) && (97 + (d - 10) <=? 57)) with false
      by (symmetry; apply andb_false_iff; right; apply N.leb_gt; lia).
    replace ((65 <=? 97 + (d - 10)) && (97 + (d - 10) <=? 70)) with false
      by (symmetry; apply andb_false_iff; right; apply N.leb_gt; lia).
    replace ((97 <=? 97 + (d - 10)) && (97 + (d - 10) <=? 102)) with true
      by (symmetry; apply andb_true_iff; split; apply N.leb_le; lia).
    f_equal. lia.
Qed.

Lemma hex4_value c :
  c < 65536 ->
  16 * (16 * (16 * (16 * 0 + (c / 4096) mod 16) + (c / 256) mod 16)
        + (c / 16) mod 16) + c mod 16 = c.
Proof.
  intros H. zify. Z.to_euclidean_division_equations. lia.
Qed.

Lemma step_hex_more acc cur k v d :
  d < 16 ->
  step (PUnicode acc cur (S (S k)) v) (hexdigit d)
  = Some (PUnicode acc cur (S k) (16 * v + d)).
Proof. intros H. unfold step. now rewrite hexval_hexdigit. Qed.

Lemma step_hex_last acc cur v d :
  d < 16 ->
  step (PUnicode acc cur 1 v) (hexdigit d)
  = Some (PChars acc (cur ++ [16 * v + d])).
Proof. intros H. unfold step. now rewrite hexval_hexdigit. Qed.

Lemma mod16_lt n : n mod 16 < 16.
Proof. apply N.mod_lt. discriminate. Qed.

(** The parser reads a [\u] escape back as the code unit it was made from. *)
Lemma run_UnicodeEscape acc cur c rest :
  c < 65536 ->
  run (PChars acc cur) (UnicodeEscape c ++ rest)
  = run (PChars acc (cur ++ [c])) rest.
Proof.
  intros H. unfold UnicodeEscape.
  cbn [app]. rewrite run_cons. cbn [step BACKSLASH QUOTE N.eqb Pos.eqb].
  rewrite run_cons. cbn [step N.eqb Pos.eqb].
  do 3 (erewrite run_step by (apply step_hex_more, mod16_lt)).
  erewrite run_step by (apply step_hex_last, mod16_lt).
  now rewrite hex4_value.
Qed.

Lemma step_verbatim acc cur c :
  32 <= c -> c <> QUOTE -> c <> BACKSLASH ->
  step (PChars acc cur) c = Some (PChars acc (cur ++ [c])).
Proof.
  intros H32 Hq Hb. unfold step.
  apply N.eqb_neq in Hq, Hb. rewrite Hq, Hb.
  apply N.ltb_ge in H32. now rewrite H32.
Qed.

Lemma surrogate_lt c : is_surrogate c = true -> c < 65536.
Proof.
  unfold is_surrogate. rewrite andb_true_iff, !N.leb_le. lia.
Qed.

(** One code unit, quoted on its own, is read back as itself. *)
Lemma run_quote_unit acc cur c rest :
  run (PChars acc cur) (quote_unit c ++ rest)
  = run (PChars acc (cur ++ [c])) rest.
Proof.
  unfold quote_unit.
  destruct (N.eqb_spec c 8) as [-> | H8]; [reflexivity |].
  destruct (N.eqb_spec c 9) as [-> | H9]; [reflexivity |].
  destruct (N.eqb_spec c 10) as [-> | H10]; [reflexivity |].
  destruct (N.eqb_spec c 12) as [-> | H12]; [reflexivity |].
  destruct (N.eqb_spec c 13) as [-> | H13]; [reflexivity |].
  destruct (N.eqb_spec c QUOTE) as [-> | Hq]; [reflexivity |].
  destruct (N.eqb_spec c BACKSLASH) as [-> | Hb]; [reflexivity |].
  destruct (N.ltb_spec c 32) as [Hlt | Hge]; cbn [orb].
  - apply run_UnicodeEscape. lia.
  - destruct (is_surrogate c) eqn:Hs.
    + apply run_UnicodeEscape. now apply surrogate_lt.
    + cbn [app]. apply run_step. now apply step_verbatim.
Qed.

Lemma lead_verbatim acc cur c :
  is_lead c = true -> step (PChars acc cur) c = Some (PChars acc (cur ++ [c])).
Proof.
  unfold is_lead. rewrite andb_true_iff, !N.leb_le. intros [Hlo Hhi].
  apply step_verbatim; unfold QUOTE, BACKSLASH; lia.
Qed.

Lemma trail_verbatim acc cur c :
  is_trail c = true -> step (PChars acc cur) c = Some (PChars acc (cur ++ [c])).
Proof.
  unfold is_trail. rewrite andb_true_iff, !N.leb_le. intros [Hlo Hhi].
  apply step_verbatim; unfold QUOTE, BACKSLASH; lia.
Qed.

Lemma quote_units_pair c d s :
  quote_units (c :: d :: s)
  = if is_lead c && is_trail d then c :: d :: quote_units s
    else quote_unit c ++ quote_units (d :: s).
Proof. reflexivity. Qed.

(** The characters of a quoted string are read back as the string.  The
    induction is on a bound of the length, since a surrogate pair consumes
    two code units at once. *)
Lemma run_quote_units_bounded n :
  forall s, (List.length s <= n)%nat ->
  forall acc cur rest,
    run (PChars acc cur) (quote_units s ++ rest)
    = run (PChars acc (cur ++ s)) rest.
Proof.
  induction n as [| n IH]; intros s Hlen acc cur rest.
  - destruct s; [| cbn in Hlen; lia]. cbn. now rewrite app_nil_r.
  - destruct s as [| c [| d s'']].
    + cbn. now rewrite app_nil_r.
    + cbn [quote_units]. apply run_quote_unit.
    + rewrite quote_units_pair.
      destruct (is_lead c && is_trail d) eqn:Hpair.
      * apply andb_true_iff in Hpair as [Hc Hd].
        cbn [app].
        erewrite run_step by (now apply lead_verbatim).
        erewrite run_step by (now apply trail_verbatim).
        rewrite IH by (cbn in Hlen; lia).
        now rewrite <- !app_assoc.
      * rewrite <- app_assoc, run_quote_unit.
        rewrite IH by (cbn in Hlen |- *; lia).
        now rewrite <- app_assoc.
Qed.

Lemma run_quote_units s acc cur rest :
  run (PChars acc cur) (quote_units s ++ rest)
  = run (PChars acc (cur ++ s)) rest.
Proof. now apply (run_quote_units_bounded (List.length s)). Qed.

(** After a comma, or after the opening bracket, the elements still to come
    are read back and appended to those already read. *)
Lemma run_elements l :
  forall x acc,
    run (PElem acc) (join COMMA (List.map QuoteJSONString (x :: l)) ++ [RBRACKET])
    = Some (acc ++ x :: l).
Proof.
  induction l as [| y l IH]; intros x acc.
  - cbn [List.map join]. unfold QuoteJSONString.
    cbn [app]. rewrite run_cons. cbn [step is_ws QUOTE N.eqb Pos.eqb orb].
    rewrite <- app_assoc, run_quote_units. reflexivity.
  - change (join COMMA (List.map QuoteJSONString (x :: y :: l)))
      with (QuoteJSONString x ++ COMMA :: join COMMA (List.map QuoteJSONString (y :: l))).
    unfold QuoteJSONString at 1.
    cbn [app]. rewrite run_cons. cbn [step is_ws QUOTE N.eqb Pos.eqb orb].
    rewrite <- !app_assoc, run_quote_units.
    cbn [app]. rewrite run_cons. cbn [step QUOTE N.eqb Pos.eqb].
    rewrite run_cons. cbn [step is_ws COMMA N.eqb Pos.eqb orb].
    rewrite IH. now rewrite <- app_assoc.
Qed.

Lemma parse_stringify a : parse (stringify a) = Some a.
Proof.
  unfold parse, stringify. destruct a as [| x l].
  - reflexivity.
  - transitivity
      (run (PElem []) (join COMMA (List.map QuoteJSONString (x :: l)) ++ [RBRACKET])).
    + cbn [List.map join]. unfold QuoteJSONString at 1 3.
      destruct l; reflexivity.
    + apply run_elements.
Qed.

Example stringify_empty : JSON.stringify [] = lit "[]".
Proof. reflexivity. Qed.

Example stringify_interests :
  JSON.stringify [lit "Arte"; lit "Vita Notturna"]
  = ([91; 34] ++ lit "Arte" ++ [34; 44; 34] ++ lit "Vita Notturna" ++ [34; 93]).
Proof. reflexivity. Qed.

(** A quote, a line feed, a lone surrogate and a surrogate pair. *)
Example stringify_escapes :
  JSON.stringify [[34; 10; 0xD83D; 0xD83D; 0xDE00]]
  = ([91; 34; 92; 34; 92; 110] ++ lit "\ud83d" ++ [0xD83D; 0xDE00; 34; 93]).
Proof. reflexivity. Qed.

Example parse_with_spaces :
  JSON.parse ([32; 91; 34] ++ lit "aA\/" ++ [34; 32; 44; 10; 34; 34; 93; 32])
  = Some [lit "aA/"; []].
Proof. reflexivity. Qed.

Example parse_not_an_array : JSON.parse (lit "null") = None.
Proof. reflexivity. Qed.

End JSONFacts.

(** ** Well-formed UTF-16 *)

Module UTF16.
Import JSON.
Local Open Scope N_scope.

Lemma surrogate_lead_or_trail c : is_surrogate c = is_lead c || is_trail c.
Proof.
  unfold is_surrogate, is_lead, is_trail.
  destruct (N.leb_spec 0xD800 c), (N.leb_spec c 0xDBFF), (N.leb_spec 0xDC00 c),
    (N.leb_spec c 0xDFFF); cbn; try reflexivity; lia.
Qed.

Lemma wf_plain c s : is_surrogate c = false -> isWellFormed (c :: s) = isWellFormed s.
Proof.
  rewrite surrogate_lead_or_trail. intros H. apply orb_false_iff in H as [Hl Ht].
  cbn. now rewrite Hl, Ht.
Qed.

Lemma wf_plain_app l s :
  Forall (fun c => is_surrogate c = false) l ->
  isWellFormed (l ++ s) = isWellFormed s.
Proof.
  induction 1 as [| c l Hc _ IH]; [reflexivity |].
  cbn [app]. now rewrite wf_plain.
Qed.

Lemma ascii_plain c : c < 128 -> is_surrogate c = false.
Proof.
  intros H. unfold is_surrogate. apply andb_false_iff. left. apply N.leb_gt. lia.
Qed.

Lemma hexdigit_bounds d : d < 16 -> 48 <= hexdigit d < 128.
Proof.
  intros H. unfold hexdigit. destruct (N.ltb_spec d 10); lia.
Qed.

(** What stands for one code unit is ASCII or the unit itself, which then
    is neither a control character nor a surrogate. *)
Lemma quote_unit_plain c :
  Forall (fun u => is_surrogate u = false /\ 32 <= u) (quote_unit c).
Proof.
  assert (Hascii : forall u, 32 <= u < 128 -> is_surrogate u = false /\ 32 <= u).
  { intros u Hu. split; [apply ascii_plain |]; lia. }
  unfold quote_unit, BACKSLASH, QUOTE.
  repeat match goal with
         | |- context [N.eqb c ?k] => destruct (N.eqb_spec c k)
         end;
    try (repeat constructor; apply Hascii; lia).
  destruct (N.ltb_spec c 32) as [Hlt | Hge]; cbn [orb].
  - unfold UnicodeEscape, BACKSLASH.
    repeat constructor;
      try (apply Hascii; lia);
      apply Hascii;
      match goal with
      | |- _ <= hexdigit ?d < _ =>
          pose proof (hexdigit_bounds d (JSONFacts.mod16_lt _)); lia
      end.
  - destruct (is_surrogate c) eqn:Hs.
    + unfold UnicodeEscape, BACKSLASH.
      repeat constructor;
        try (apply Hascii; lia);
        apply Hascii;
        match goal with
        | |- _ <= hexdigit ?d < _ =>
            pose proof (hexdigit_bounds d (JSONFacts.mod16_lt _)); lia
        end.
    + repeat constructor; assumption.
Qed.

Lemma quote_units_text_bounded n :
  forall s, (List.length s <= n)%nat ->
  (forall rest, isWellFormed (quote_units s ++ rest) = isWellFormed rest)
  /\ Forall (fun u => 32 <= u) (quote_units s).
Proof.
  induction n as [| n IH]; intros s Hlen.
  - destruct s; [| cbn in Hlen; lia]. split; [reflexivity | constructor].
  - destruct s as [| c [| d s'']].
    + split; [reflexivity | constructor].
    + cbn [quote_units]. pose proof (quote_unit_plain c) as Hc. split.
      * intros rest. apply wf_plain_app.
        eapply Forall_impl; [| exact Hc]. now intros u [Hu _].
      * eapply Forall_impl; [| exact Hc]. now intros u [_ Hu].
    + rewrite JSONFacts.quote_units_pair.
      destruct (is_lead c && is_trail d) eqn:Hpair.
      * apply andb_true_iff in Hpair as [Hc Hd].
        destruct (IH s'') as [Hwf Hge]; [cbn in Hlen; lia |]. split.
        -- intros rest. cbn [app isWellFormed]. rewrite Hc, Hd. cbn. apply Hwf.
        -- unfold is_lead in Hc. unfold is_trail in Hd.
           apply andb_true_iff in Hc as [Hc _]. apply andb_true_iff in Hd as [Hd _].
           apply N.leb_le in Hc, Hd.
           constructor; [lia |]. constructor; [lia | exact Hge].
      * destruct (IH (d :: s'')) as [Hwf Hge]; [cbn in Hlen |- *; lia |].
        pose proof (quote_unit_plain c) as Hc. split.
        -- intros rest. rewrite <- app_assoc, wf_plain_app; [apply Hwf |].
           eapply Forall_impl; [| exact Hc]. now intros u [Hu _].
        -- apply Forall_app. split; [| exact Hge].
           eapply Forall_impl; [| exact Hc]. now intros u [_ Hu].
Qed.

Lemma QuoteJSONString_text s :
  (forall rest, isWellFormed (QuoteJSONString s ++ rest) = isWellFormed rest)
  /\ Forall (fun u => 32 <= u) (QuoteJSONString s).
Proof.
  destruct (quote_units_text_bounded (List.length s) s (le_n _)) as [Hwf Hge].
  unfold QuoteJSONString, QUOTE. split.
  - intros rest. cbn [app]. rewrite wf_plain by (apply ascii_plain; lia).
    rewrite <- app_assoc, Hwf. cbn [app]. apply wf_plain, ascii_plain. lia.
  - constructor; [lia |]. apply Forall_app. split; [exact Hge |].
    constructor; [lia | constructor].
Qed.

Lemma join_text a :
  (forall rest,
     isWellFormed (join COMMA (List.map QuoteJSONString a) ++ rest) = isWellFormed rest)
  /\ Forall (fun u => 32 <= u) (join COMMA (List.map QuoteJSONString a)).
Proof.
  induction a as [| x a [IHwf IHge]]; [split; [reflexivity | constructor] |].
  destruct (QuoteJSONString_text x) as [Hwf Hge].
  destruct a as [| y a]; [split; [exact Hwf | exact Hge] |].
  change (join COMMA (List.map QuoteJSONString (x :: y :: a)))
    with (QuoteJSONString x ++ COMMA :: join COMMA (List.map QuoteJSONString (y :: a))).
  split.
  - intros rest. rewrite <- app_assoc, Hwf. cbn [app].
    rewrite wf_plain by (apply ascii_plain; unfold COMMA; lia). apply IHwf.
  - apply Forall_app. split; [exact Hge |].
    constructor; [unfold COMMA; lia | exact IHge].
Qed.

Lemma stringify_text (a : list jsstring) :
  isWellFormed (stringify a) = true
  /\ Forall (fun u => 32 <= u) (stringify a).
Proof.
  destruct (join_text a) as [Hwf Hge]. unfold stringify, LBRACKET, RBRACKET. split.
  - rewrite wf_plain by (apply ascii_plain; lia). now rewrite Hwf.
  - constructor; [lia |]. apply Forall_app. split; [exact Hge |].
    constructor; [lia | constructor].
Qed.

Lemma isWellFormed_pair c d s :
  isWellFormed (c :: d :: s)
  = if is_lead c then is_trail d && isWellFormed s
    else negb (is_trail c) && isWellFormed (d :: s).
Proof. reflexivity. Qed.

Lemma toWellFormed_pair c d s :
  toWellFormed (c :: d :: s)
  = if is_lead c
    then if is_trail d then c :: d :: toWellFormed s
         else REPLACEMENT :: toWellFormed (d :: s)
    else if is_trail c then REPLACEMENT :: toWellFormed (d :: s)
    else c :: toWellFormed (d :: s).
Proof. reflexivity. Qed.

(** A well-formed string comes back from the database as it is. *)
Lemma toWellFormed_bounded n :
  forall s, (List.length s <= n)%nat -> isWellFormed s = true -> toWellFormed s = s.
Proof.
  induction n as [| n IH]; intros s Hlen Hwf.
  - destruct s; [reflexivity | cbn in Hlen; lia].
  - destruct s as [| c [| d s'']]; [reflexivity | |].
    + cbn in Hwf |- *. destruct (is_lead c); [discriminate |].
      destruct (is_trail c); [discriminate | reflexivity].
    + rewrite isWellFormed_pair in Hwf. rewrite toWellFormed_pair.
      destruct (is_lead c).
      * apply andb_true_iff in Hwf as [Hd Hwf]. rewrite Hd.
        rewrite (IH s'') by (cbn in Hlen; try lia; assumption). reflexivity.
      * apply andb_true_iff in Hwf as [Hc Hwf]. apply negb_true_iff in Hc.
        rewrite Hc. rewrite (IH (d :: s'')) by (cbn in Hlen |- *; try lia; assumption).
        reflexivity.
Qed.

Lemma toWellFormed_id s : isWellFormed s = true -> toWellFormed s = s.
Proof. now apply (toWellFormed_bounded (List.length s)). Qed.

(** What comes back from the database is well-formed. *)
Lemma toWellFormed_wf_bounded n :
  forall s, (List.length s <= n)%nat -> isWellFormed (toWellFormed s) = true.
Proof.
  assert (Hrep : is_surrogate REPLACEMENT = false) by reflexivity.
  induction n as [| n IH]; intros s Hlen.
  - destruct s; [reflexivity | cbn in Hlen; lia].
  - destruct s as [| c [| d s'']]; [reflexivity | |].
    + cbn. destruct (is_lead c) eqn:Hl; [reflexivity |].
      destruct (is_trail c) eqn:Ht; [reflexivity |]. cbn. now rewrite Hl, Ht.
    + rewrite toWellFormed_pair. destruct (is_lead c) eqn:Hl.
      * destruct (is_trail d) eqn:Hd.
        -- rewrite isWellFormed_pair, Hl, Hd. cbn. apply IH. cbn in Hlen. lia.
        -- rewrite wf_plain by exact Hrep. apply IH. cbn in Hlen |- *. lia.
      * destruct (is_trail c) eqn:Ht.
        -- rewrite wf_plain by exact Hrep. apply IH. cbn in Hlen |- *. lia.
        -- rewrite wf_plain by (rewrite surrogate_lead_or_trail, Hl, Ht; reflexivity).
           apply IH. cbn in Hlen |- *. lia.
Qed.

Lemma toWellFormed_wf s : isWellFormed (toWellFormed s) = true.
Proof. now apply (toWellFormed_wf_bounded (List.length s)). Qed.

(** An ASCII prefix does not change whether a string is well-formed. *)
Lemma wf_ascii_app l s :
  Forall (fun c => c < 128) l -> isWellFormed (l ++ s) = isWellFormed s.
Proof.
  intros H. apply wf_plain_app. eapply Forall_impl; [| exact H].
  intros c Hc. now apply ascii_plain.
Qed.

Example toWellFormed_lone :
  toWellFormed [0xD83D; 0xDE00; 0xD83D; 65; 0xDE00] = [0xD83D; 0xDE00; 0xFFFD; 65; 0xFFFD].
Proof. reflexivity. Qed.

End UTF16.

(** ** The JSON grammar *)

Module JSONGrammarFacts.
Local Open Scope N_scope.

(** The recogniser follows the parser of arrays of strings step by step. *)
Lemma step_grammar_state st c st' :
  JSON.step st c = Some st' ->
  JSONGrammar.step (fst (grammar_state st)) (snd (grammar_state st)) c
  = Some (grammar_state st').
Proof.
  destruct st as [| | acc cur | acc cur | acc cur k v | acc | acc | acc];
    cbn [JSON.step grammar_state fst snd JSONGrammar.step];
    unfold JSONGrammar.after.
  - destruct (JSON.is_ws c); [now intros [= <-] |].
    destruct (N.eqb_spec c JSON.LBRACKET) as [-> | _]; [now intros [= <-] | discriminate].
  - destruct (JSON.is_ws c); [now intros [= <-] |].
    destruct (N.eqb_spec c JSON.QUOTE) as [-> | _]; [now intros [= <-] |].
    destruct (N.eqb_spec c JSON.RBRACKET) as [-> | _]; [now intros [= <-] | discriminate].
  - destruct (c =? JSON.QUOTE); [now intros [= <-] |].
    destruct (c =? JSON.BACKSLASH); [now intros [= <-] |].
    destruct (c <? 32); [discriminate | now intros [= <-]].
  - destruct (c =? 117); [now intros [= <-] |].
    destruct (JSON.unescape c); [now intros [= <-] | discriminate].
  - destruct (JSON.hexval c); [| discriminate].
    destruct k as [| [| k']]; now intros [= <-].
  - destruct (JSON.is_ws c); [now intros [= <-] |].
    destruct (c =? JSON.COMMA); [now intros [= <-] |].
    destruct (c =? JSON.RBRACKET); [now intros [= <-] | discriminate].
  - destruct (JSON.is_ws c); [now intros [= <-] |].
    destruct (N.eqb_spec c JSON.QUOTE) as [-> | _]; [now intros [= <-] | discriminate].
  - destruct (JSON.is_ws c); [now intros [= <-] | discriminate].
Qed.

Lemma run_grammar_state text :
  forall st a,
    JSON.run st text = Some a ->
    JSONGrammar.run (fst (grammar_state st)) (snd (grammar_state st)) text = true.
Proof.
  induction text as [| c text IH]; intros st a H.
  - cbn in H. now destruct st.
  - cbn in H. destruct (JSON.step st c) as [st' |] eqn:Hstep; [| discriminate].
    cbn [JSONGrammar.run]. rewrite (step_grammar_state st c st' Hstep).
    destruct (grammar_state st') as [m' stack'] eqn:E.
    specialize (IH st' a H). now rewrite E in IH.
Qed.

(** A text that [JSON.parse] reads as an array of strings is a JSON text. *)
Lemma parse_valid text a : JSON.parse text = Some a -> JSONGrammar.valid text = true.
Proof. intros H. exact (run_grammar_state text JSON.PValue a H). Qed.

Lemma valid_stringify a : JSONGrammar.valid (JSON.stringify a) = true.
Proof. apply (parse_valid _ a), JSONFacts.parse_stringify. Qed.

Example valid_null : JSONGrammar.valid (lit "null") = true.
Proof. reflexivity. Qed.

Example valid_nested :
  JSONGrammar.valid (lit " [1, -2.5e+3, true, {}, [ ], null] ") = true.
Proof. reflexivity. Qed.

Example valid_object :
  JSONGrammar.valid
    ([123; 34] ++ lit "aé" ++ [34; 58; 91; 34; 34; 44; 48; 93; 125])
  = true.
Proof. reflexivity. Qed.

Example invalid_trailing_comma : JSONGrammar.valid (lit "[1,]") = false.
Proof. reflexivity. Qed.

Example invalid_leading_zero : JSONGrammar.valid (lit "01") = false.
Proof. reflexivity. Qed.

Example invalid_open : JSONGrammar.valid (lit "[1") = false.
Proof. reflexivity. Qed.

Example invalid_empty : JSONGrammar.valid [] = false.
Proof. reflexivity. Qed.

Example invalid_replacement : JSONGrammar.valid [0xFFFD] = false.
Proof. reflexivity. Qed.

Example JSON_parse_strings :
  JSON_parse ([91; 34] ++ lit "Arte" ++ [34; 93]) = Some (Strings [lit "Arte"]).
Proof. reflexivity. Qed.

Example JSON_parse_null : JSON_parse (lit "null") = Some (Other (lit "null")).
Proof. reflexivity. Qed.

Example JSON_parse_numbers : JSON_parse (lit "[1]") = Some (Other (lit "[1]")).
Proof. reflexivity. Qed.

Example JSON_parse_SyntaxError : JSON_parse (lit "[1") = None.
Proof. reflexivity. Qed.

Example lit_units : lit "Viaggio a " = [86; 105; 97; 103; 103; 105; 111; 32; 97; 32].
Proof. reflexivity. Qed.

End JSONGrammarFacts.

(** ** The table *)

Local Open Scope Z_scope.

Lemma jsstring_eqb_eq a b : jsstring_eqb a b = true <-> a = b.
Proof.
  revert b. induction a as [| x a IH]; intros [| y b]; cbn; split;
    try congruence; try discriminate.
  - rewrite andb_true_iff, N.eqb_eq, IH. intros [-> ->]. reflexivity.
  - intros [= -> ->]. rewrite N.eqb_refl. now apply IH.
Qed.

Lemma jsstring_eqb_refl a : jsstring_eqb a a = true.
Proof. now apply jsstring_eqb_eq. Qed.

Lemma jsstring_eqb_neq a b : jsstring_eqb a b = false <-> a <> b.
Proof.
  rewrite <- jsstring_eqb_eq. now destruct (jsstring_eqb a b).
Qed.

Lemma selectById_id id db r :
  selectById id db = Some r -> Row.id r = id /\ In r db.
Proof.
  unfold selectById. intros H. apply find_some in H as [Hin Heq].
  split; [now apply jsstring_eqb_eq | assumption].
Qed.

Lemma selectById_None id db :
  selectById id db = None <-> (forall r, In r db -> Row.id r <> id).
Proof.
  unfold selectById. split.
  - intros H r Hin. apply jsstring_eqb_neq.
    exact (find_none _ _ H r Hin).
  - intros H. induction db as [| x db IH]; [reflexivity |].
    cbn. destruct (jsstring_eqb (Row.id x) id) eqn:E.
    + apply jsstring_eqb_eq in E. exfalso. apply (H x); [now left | exact E].
    + apply IH. intros r Hin. apply H. now right.
Qed.

Lemma existsb_selectById id db :
  existsb (fun x => jsstring_eqb (Row.id x) id) db = false
  <-> selectById id db = None.
Proof.
  unfold selectById. induction db as [| x db IH]; cbn; [tauto |].
  destruct (jsstring_eqb (Row.id x) id); cbn; [split; discriminate | exact IH].
Qed.

Lemma selectById_snoc id db r :
  selectById id (db ++ [r])
  = match selectById id db with
    | Some x => Some x
    | None => if jsstring_eqb (Row.id r) id then Some r else None
    end.
Proof.
  unfold selectById. induction db as [| x db IH]; cbn; [reflexivity |].
  now destruct (jsstring_eqb (Row.id x) id).
Qed.

(** The INSERT succeeds exactly when the id is not yet a key. *)
Lemma insert_fresh r db :
  selectById (Row.id r) db = None -> insert r db = Ok (db ++ [r]).
Proof.
  intros H. unfold insert. apply existsb_selectById in H. now rewrite H.
Qed.

Lemma insert_Ok r db db' :
  insert r db = Ok db' ->
  selectById (Row.id r) db = None /\ db' = db ++ [r].
Proof.
  unfold insert.
  destruct (existsb _ db) eqn:E; [discriminate |].
  intros [= <-]. split; [now apply existsb_selectById | reflexivity].
Qed.

Lemma insert_Throw r db e :
  insert r db = Throw e -> e = SqliteError_CONSTRAINT_PRIMARYKEY.
Proof.
  unfold insert. destruct (existsb _ db); [congruence | discriminate].
Qed.

Lemma selectById_deleteById id db : selectById id (deleteById id db) = None.
Proof.
  apply selectById_None. intros r Hin.
  apply filter_In in Hin as [_ Hne].
  apply negb_true_iff in Hne. now apply jsstring_eqb_neq.
Qed.

Lemma updateTitle_absent id title db :
  selectById id db = None -> updateTitle id title db = db.
Proof.
  rewrite selectById_None. intros H. unfold updateTitle.
  induction db as [| x db IH]; [reflexivity |]. cbn.
  assert (Hx : jsstring_eqb (Row.id x) id = false).
  { apply jsstring_eqb_neq. apply H. now left. }
  rewrite Hx. f_equal. apply IH. intros r Hin. apply H. now right.
Qed.

(** *** ORDER BY *)

Lemma In_order_insert x r l : In x (order_insert r l) <-> x = r \/ In x l.
Proof.
  induction l as [| y l IH]; cbn.
  - intuition congruence.
  - destruct (Row.created_at r <? Row.created_at y); cbn; rewrite ?IH;
      intuition congruence.
Qed.

Lemma In_selectAll x db : In x (selectAll db) <-> In x db.
Proof.
  unfold selectAll. induction db as [| r db IH]; cbn; [tauto |].
  rewrite In_order_insert, IH. intuition congruence.
Qed.

Lemma length_order_insert r l :
  List.length (order_insert r l) = S (List.length l).
Proof.
  induction l as [| y l IH]; cbn; [reflexivity |].
  destruct (Row.created_at r <? Row.created_at y); cbn; now rewrite ?IH.
Qed.

Lemma length_selectAll db : List.length (selectAll db) = List.length db.
Proof.
  unfold selectAll. induction db as [| r db IH]; cbn; [reflexivity |].
  now rewrite length_order_insert, IH.
Qed.

(** A row inserted at a later second than every other row is listed first. *)
Lemma selectAll_snoc_newer db x :
  (forall r, In r db -> Row.created_at r < Row.created_at x) ->
  selectAll (db ++ [x]) = x :: selectAll db.
Proof.
  unfold selectAll. induction db as [| r db IH]; intros H; [reflexivity |].
  cbn. rewrite IH by (intros y Hy; apply H; now right).
  cbn. assert (Hr : Row.created_at r < Row.created_at x) by (apply H; now left).
  apply Z.ltb_lt in Hr. now rewrite Hr.
Qed.

(** A row inserted within the same second as the newest rows, or on a clock
    that did not advance, is listed after all the rows it does not beat. *)
Lemma selectAll_snoc_not_newer db x :
  (forall r, In r db -> Row.created_at x <= Row.created_at r) ->
  selectAll (db ++ [x]) = selectAll db ++ [x].
Proof.
  unfold selectAll. induction db as [| r db IH]; intros H; [reflexivity |].
  cbn. rewrite IH by (intros y Hy; apply H; now right).
  assert (Hr : Row.created_at x <= Row.created_at r) by (apply H; now left).
  clear IH H. induction (order_by_created_at_desc db) as [| y l IHl]; cbn.
  - apply Z.ltb_ge in Hr. now rewrite Hr.
  - destruct (Row.created_at r <? Row.created_at y); cbn; [| reflexivity].
    f_equal. exact IHl.
Qed.

(** While the clock advances by at least a second between insertions, the
    listing is the table read backwards: newest first. *)
Lemma order_insert_oldest r l :
  (forall y, In y l -> older r y) -> order_insert r l = l ++ [r].
Proof.
  induction l as [| y l IH]; intros H; [reflexivity |]. cbn.
  assert (Hy : older r y) by (apply H; now left).
  apply Z.ltb_lt in Hy. rewrite Hy. f_equal.
  apply IH. intros z Hz. apply H. now right.
Qed.

Lemma selectAll_clock_advances db :
  StronglySorted older db -> selectAll db = rev db.
Proof.
  unfold selectAll. induction 1 as [| r db _ IH Hall]; [reflexivity |].
  cbn. rewrite IH. apply order_insert_oldest.
  intros y Hy. apply in_rev in Hy.
  rewrite Forall_forall in Hall. now apply Hall.
Qed.

(** While the clock does not advance, the listing is the table in the order
    of insertion: oldest first. *)
Lemma selectAll_clock_stalls db :
  StronglySorted not_newer db -> selectAll db = db.
Proof.
  unfold selectAll. induction 1 as [| r db _ IH Hall]; [reflexivity |].
  cbn. rewrite IH. destruct db as [| y db]; [reflexivity |]. cbn.
  apply Forall_inv in Hall. unfold not_newer in Hall.
  apply Z.ltb_ge in Hall. now rewrite Hall.
Qed.

(** *** Decoding *)

Lemma read_text_survives column : survives column -> read_text column = column.
Proof.
  intros H. destruct column as [text |]; [| reflexivity].
  cbn. f_equal. apply UTF16.toWellFormed_id. now apply H.
Qed.

Lemma parse_column_stringify a :
  parse_column (Some (JSON.stringify a)) = Some (Strings a).
Proof.
  unfold parse_column, read_text. cbn [option_map].
  rewrite UTF16.toWellFormed_id by apply UTF16.stringify_text.
  unfold JSON_parse. now rewrite JSONFacts.parse_stringify.
Qed.

Lemma parse_column_NULL : parse_column None = Some (Other (lit "null")).
Proof. reflexivity. Qed.

Lemma parse_column_null : parse_column (Some (lit "null")) = Some (Other (lit "null")).
Proof. reflexivity. Qed.

Lemma parse_column_JSON_stringify v :
  parse_column (JSON_stringify v) = Some (parsed_of v).
Proof.
  destruct v as [| | a]; [reflexivity | reflexivity | apply parse_column_stringify].
Qed.

Lemma decode_parsed r i a :
  parse_column (Row.interests r) = Some i ->
  parse_column (Row.activities r) = Some a ->
  decode r = Ok (Itinerary.mk (Row.id r) (read_text (Row.title r))
                   (read_text (Row.destination r)) (Row.duration r)
                   (read_text (Row.budget r)) (read_text (Row.type r)) i a
                   (read_text (Row.content r)) (Row.created_at r)).
Proof. intros Hi Ha. unfold decode. now rewrite Hi, Ha. Qed.

Lemma decode_new_row id now b :
  decode (new_row id now b)
  = Ok (Itinerary.mk id
          (Some (toWellFormed (or_else (Body.title b) (default_title (Body.destination b)))))
          (read_text (bound (Body.destination b))) (bound (Body.duration b))
          (read_text (bound (Body.budget b))) (read_text (bound (Body.type b)))
          (parsed_of (Body.interests b)) (parsed_of (Body.activities b))
          (read_text (bound (Body.content b))) now).
Proof.
  now rewrite (decode_parsed _ (parsed_of (Body.interests b)) (parsed_of (Body.activities b)))
    by apply parse_column_JSON_stringify.
Qed.

Lemma mapM_decode_encoded rows :
  Forall encoded rows -> exists records, mapM decode rows = Ok records.
Proof.
  induction 1 as [| r rows (i & a & Hi & Ha) _ (records & IH)]; cbn.
  - now exists [].
  - rewrite (decode_parsed r i a Hi Ha). cbn. rewrite IH. cbn. eauto.
Qed.

(** *** The invariant of the encoded columns *)

Lemma encoded_new_row id now b : encoded (new_row id now b).
Proof.
  exists (parsed_of (Body.interests b)), (parsed_of (Body.activities b)).
  split; apply parse_column_JSON_stringify.
Qed.

Lemma encoded_set_title title r : encoded r -> encoded (set_title title r).
Proof. intros (i & a & Hi & Ha). now exists i, a. Qed.

Lemma well_encoded_handle rq db :
  well_encoded db -> well_encoded (snd (handle rq db)).
Proof.
  unfold well_encoded. intros H. destruct rq as [uuid now b | | id | id title | id]; cbn.
  - unfold post_itineraries. destruct (insert _ db) as [db' | e] eqn:E; cbn; [| exact H].
    apply insert_Ok in E as [_ ->].
    apply Forall_app. split; [exact H |].
    constructor; [apply encoded_new_row | constructor].
  - exact H.
  - exact H.
  - unfold updateTitle. apply Forall_map.
    eapply Forall_impl; [| exact H]. intros r Hr. cbn.
    destruct (jsstring_eqb (Row.id r) id); [now apply encoded_set_title | exact Hr].
  - unfold deleteById. rewrite Forall_forall in *. intros r Hin.
    apply filter_In in Hin as [Hin _]. now apply H.
Qed.

Lemma reachable_well_encoded db : reachable db -> well_encoded db.
Proof.
  induction 1 as [| rq db _ IH]; [constructor | now apply well_encoded_handle].
Qed.

(** *** The primary key *)

Lemma map_id_updateTitle id title db :
  List.map Row.id (updateTitle id title db) = List.map Row.id db.
Proof.
  unfold updateTitle. rewrite map_map. apply map_ext.
  intros r. now destruct (jsstring_eqb (Row.id r) id).
Qed.

Lemma unique_ids_deleteById id db :
  unique_ids db -> unique_ids (deleteById id db).
Proof.
  unfold unique_ids, deleteById. induction db as [| r db IH]; cbn; intros H.
  - constructor.
  - inversion H as [| x l Hnotin Hrest]; subst.
    destruct (negb (jsstring_eqb (Row.id r) id)); cbn; [| now apply IH].
    constructor; [| now apply IH].
    intros Hin. apply Hnotin. apply in_map_iff in Hin as (y & Hy & Hiny).
    apply filter_In in Hiny as [Hiny _]. apply in_map_iff. eauto.
Qed.

Lemma unique_ids_snoc r db :
  unique_ids db -> selectById (Row.id r) db = None -> unique_ids (db ++ [r]).
Proof.
  unfold unique_ids. intros Hdb Hfresh. rewrite map_app. cbn.
  apply NoDup_app; [exact Hdb | repeat constructor; intros [] |].
  intros x Hx [<- | []]. apply in_map_iff in Hx as (y & Hy & Hin).
  exact (proj1 (selectById_None _ db) Hfresh y Hin Hy).
Qed.

Lemma unique_ids_handle rq db :
  unique_ids db -> unique_ids (snd (handle rq db)).
Proof.
  intros H. destruct rq as [uuid now b | | id | id title | id]; cbn;
    try exact H.
  - unfold post_itineraries. destruct (insert _ db) as [db' | e] eqn:E; cbn; [| exact H].
    apply insert_Ok in E as [Hfresh ->]. now apply unique_ids_snoc.
  - unfold unique_ids. now rewrite map_id_updateTitle.
  - now apply unique_ids_deleteById.
Qed.

Lemma reachable_unique_ids db : reachable db -> unique_ids db.
Proof.
  induction 1 as [| rq db _ IH]; [constructor | now apply unique_ids_handle].
Qed.

(** Under the primary key, the SELECT by id returns the row with that id. *)
Lemma selectById_unique db row :
  unique_ids db -> In row db -> selectById (Row.id row) db = Some row.
Proof.
  unfold unique_ids, selectById. induction db as [| x db IH]; cbn; [tauto |].
  intros Hnd Hin. inversion Hnd as [| y l Hnotin Hrest]; subst.
  destruct (jsstring_eqb (Row.id x) (Row.id row)) eqn:E.
  - destruct Hin as [-> | Hin]; [reflexivity |].
    apply jsstring_eqb_eq in E. exfalso. apply Hnotin.
    rewrite E. now apply in_map.
  - destruct Hin as [-> | Hin]; [now rewrite jsstring_eqb_refl in E |].
    now apply IH.
Qed.

Lemma reachable_serve rqs : forall db, reachable db -> reachable (serve rqs db).
Proof.
  induction rqs as [| rq rqs IH]; intros db H; cbn; [exact H |].
  apply IH. now constructor.
Qed.

(** ** The routes *)

Example default_title_tokyo :
  Row.title (new_row uuid_a noon tokyo) = Some (lit "Viaggio a Tokyo").
Proof. reflexivity. Qed.

(** The POST route answers 200 or 500, never with a client error. *)
Lemma post_itineraries_status uuid now b db :
  status (fst (post_itineraries uuid now b db)) = 200
  \/ status (fst (post_itineraries uuid now b db)) = 500.
Proof.
  unfold post_itineraries. destruct (insert _ db); cbn; auto.
Qed.

Lemma post_itineraries_fresh uuid now b db :
  selectById uuid db = None ->
  post_itineraries uuid now b db
  = (res_json (JsonId uuid), db ++ [new_row uuid now b]).
Proof.
  intros H. unfold post_itineraries. now rewrite insert_fresh.
Qed.

Lemma post_itineraries_returned uuid now b db id db' :
  post_itineraries uuid now b db = (res_json (JsonId id), db') ->
  id = uuid /\ selectById uuid db = None /\ db' = db ++ [new_row uuid now b].
Proof.
  unfold post_itineraries.
  destruct (insert _ db) as [db1 | e] eqn:E; [| discriminate].
  intros [= <- <-]. apply insert_Ok in E as [Hfresh ->]. auto.
Qed.

Lemma selectById_new_row uuid now b db :
  selectById uuid db = None ->
  selectById uuid (db ++ [new_row uuid now b]) = Some (new_row uuid now b).
Proof.
  intros H. rewrite selectById_snoc, H. cbn. now rewrite jsstring_eqb_refl.
Qed.

(** C1, as amended: the POST route does not validate its body.  Whatever
    the body, with [destination] and [content] present or absent, the answer
    is never a ValidationError; and when the generated id is not yet a key,
    the row is stored as it stands (a missing field as NULL) and the id is
    returned. *)
Theorem post_itineraries_does_not_validate uuid now b db :
  signals_ValidationError (fst (post_itineraries uuid now b db)) = false
  /\ (selectById uuid db = None ->
      post_itineraries uuid now b db
      = (res_json (JsonId uuid), db ++ [new_row uuid now b])).
Proof.
  split; [| apply post_itineraries_fresh].
  unfold signals_ValidationError.
  destruct (post_itineraries_status uuid now b db) as [-> | ->]; reflexivity.
Qed.

Lemma post_itineraries_does_not_validate_witness :
  selectById uuid_a [] = None
  /\ post_itineraries uuid_a noon no_required_fields []
     = (res_json (JsonId uuid_a), [new_row uuid_a noon no_required_fields]).
Proof.
  split; [reflexivity |].
  apply (proj2 (post_itineraries_does_not_validate uuid_a noon no_required_fields [])).
  reflexivity.
Defined.

(** C1, as stated, fails on a body without [destination] and [content]:
    the answer is not a ValidationError and the row is in the table. *)
Lemma post_without_required_fields_is_stored :
  ~ (Body.destination no_required_fields = undefined ->
     signals_ValidationError (fst (post_itineraries uuid_a noon no_required_fields [])) = true
     /\ snd (post_itineraries uuid_a noon no_required_fields []) = []).
Proof.
  intros H. destruct (H eq_refl) as [Hsig _]. vm_compute in Hsig. discriminate.
Qed.

(** C2: decoding the encoding of a sequence of strings gives the sequence
    back, in the same order; the empty sequence included. *)
Theorem decodeSequence_encodeSequence (s : list jsstring) :
  JSON.parse (JSON.stringify s) = Some s.
Proof. apply JSONFacts.parse_stringify. Qed.

Lemma default_title_survives d :
  isWellFormed d = true -> toWellFormed (lit "Viaggio a " ++ d) = (lit "Viaggio a " ++ d)%list.
Proof.
  intros Hd. apply UTF16.toWellFormed_id.
  rewrite UTF16.wf_ascii_app; [exact Hd |].
  repeat constructor.
Qed.

(** C3, as amended: for a body that has every field, with well-formed
    UTF-16 strings (no surrogate outside a pair) as destination, budget,
    type and content, when the POST route returns an id, the GET route on
    that id answers with the destination, duration, budget, type,
    interests, activities and content of the body, the id, and the second
    of the insertion as [created_at]; the title is that of the body when
    it is a non-empty well-formed string, and [Viaggio a ${destination}]
    when the body has no title, a [null] title or the empty title.  The
    strings of the interests and activities are under no condition. *)
Theorem get_after_post uuid now b db id db' d n bu ty i a c :
  Body.destination b = present d ->
  Body.duration b = present n ->
  Body.budget b = present bu ->
  Body.type b = present ty ->
  Body.interests b = present i ->
  Body.activities b = present a ->
  Body.content b = present c ->
  isWellFormed d = true ->
  isWellFormed bu = true ->
  isWellFormed ty = true ->
  isWellFormed c = true ->
  post_itineraries uuid now b db = (res_json (JsonId id), db') ->
  exists title,
    get_itinerary id db'
    = res_json (JsonRow
        (Itinerary.mk id (Some title) (Some d) (Some n) (Some bu) (Some ty)
           (Strings i) (Strings a) (Some c) now))
    /\ (forall t, Body.title b = present t -> t <> [] -> isWellFormed t = true ->
        title = t)
    /\ (Body.title b = undefined \/ Body.title b = null \/ Body.title b = present [] ->
        title = (lit "Viaggio a " ++ d)%list).
Proof.
  intros Hd Hn Hbu Hty Hi Ha Hc Wd Wbu Wty Wc Hpost.
  apply post_itineraries_returned in Hpost as (-> & Hfresh & ->).
  exists (toWellFormed (or_else (Body.title b) (default_title (Body.destination b)))).
  split; [| split].
  - unfold get_itinerary.
    rewrite selectById_new_row by assumption.
    rewrite decode_new_row, Hd, Hn, Hbu, Hty, Hi, Ha, Hc. cbn.
    now rewrite (UTF16.toWellFormed_id d), (UTF16.toWellFormed_id bu),
      (UTF16.toWellFormed_id ty), (UTF16.toWellFormed_id c) by assumption.
  - intros t Ht Hne Wt. rewrite Ht. destruct t as [| x t]; [contradiction |].
    cbn [or_else]. now apply UTF16.toWellFormed_id.
  - rewrite Hd. unfold default_title. cbn [ToString].
    intros [-> | [-> | ->]]; cbn [or_else]; now apply default_title_survives.
Qed.

Lemma get_after_post_witness :
  (exists title,
     get_itinerary uuid_a [new_row uuid_a noon tokyo]
     = res_json (JsonRow
         (Itinerary.mk uuid_a (Some title) (Some (lit "Tokyo")) (Some 5)
            (Some (lit "medio")) (Some (lit "cultural"))
            (Strings [lit "Arte"]) (Strings [lit "Musei"])
            (Some (lit "# Day 1...")) noon))
     /\ (forall t, Body.title tokyo = present t -> t <> [] -> isWellFormed t = true ->
         title = t)
     /\ (Body.title tokyo = undefined \/ Body.title tokyo = null
         \/ Body.title tokyo = present [] ->
         title = lit "Viaggio a Tokyo"))
  /\ (exists title,
        get_itinerary uuid_b [new_row uuid_b noon lisbona]
        = res_json (JsonRow
            (Itinerary.mk uuid_b (Some title) (Some (lit "Lisbona")) (Some 3)
               (Some (lit "economico")) (Some (lit "foodie"))
               (Strings [lit "Gastronomia"; lit "Storia"]) (Strings [])
               (Some (lit "# Giorno 1")) noon))
        /\ (forall t, Body.title lisbona = present t -> t <> [] ->
            isWellFormed t = true -> title = t)
        /\ (Body.title lisbona = undefined \/ Body.title lisbona = null
            \/ Body.title lisbona = present [] ->
            title = lit "Viaggio a Lisbona")).
Proof.
  split.
  - apply (get_after_post uuid_a noon tokyo [] uuid_a [new_row uuid_a noon tokyo]
             (lit "Tokyo") 5 (lit "medio") (lit "cultural") [lit "Arte"] [lit "Musei"]
             (lit "# Day 1...")); reflexivity.
  - apply (get_after_post uuid_b noon lisbona [] uuid_b [new_row uuid_b noon lisbona]
             (lit "Lisbona") 3 (lit "economico") (lit "foodie")
             [lit "Gastronomia"; lit "Storia"] [] (lit "# Giorno 1")); reflexivity.
Defined.

(** C3, as stated, fails twice.  On the body of the scenario, which has no
    title, the record read back has the default title, not the title of
    the body.  On a body whose destination is a lone surrogate, the record
    read back has U+FFFD as destination. *)
Lemma get_after_post_title_differs :
  ~ (exists r,
        get_itinerary uuid_a (snd (post_itineraries uuid_a noon tokyo []))
        = res_json (JsonRow r)
        /\ Itinerary.title r = bound (Body.title tokyo)
        /\ Itinerary.destination r = bound (Body.destination tokyo)
        /\ Itinerary.duration r = bound (Body.duration tokyo)
        /\ Itinerary.budget r = bound (Body.budget tokyo)
        /\ Itinerary.type r = bound (Body.type tokyo)
        /\ Itinerary.interests r = parsed_of (Body.interests tokyo)
        /\ Itinerary.activities r = parsed_of (Body.activities tokyo)
        /\ Itinerary.content r = bound (Body.content tokyo))
  /\ ~ (exists r,
           get_itinerary uuid_a (snd (post_itineraries uuid_a noon lone_surrogate []))
           = res_json (JsonRow r)
           /\ Itinerary.title r = bound (Body.title lone_surrogate)
           /\ Itinerary.destination r = bound (Body.destination lone_surrogate)
           /\ Itinerary.duration r = bound (Body.duration lone_surrogate)
           /\ Itinerary.budget r = bound (Body.budget lone_surrogate)
           /\ Itinerary.type r = bound (Body.type lone_surrogate)
           /\ Itinerary.interests r = parsed_of (Body.interests lone_surrogate)
           /\ Itinerary.activities r = parsed_of (Body.activities lone_surrogate)
           /\ Itinerary.content r = bound (Body.content lone_surrogate)).
Proof.
  split.
  - intros (r & Hget & Htitle & _).
    vm_compute in Hget. injection Hget as <-. discriminate Htitle.
  - intros (r & Hget & _ & Hdest & _).
    vm_compute in Hget. injection Hget as <-. discriminate Hdest.
Qed.

(** Three POSTs at strictly increasing seconds are listed newest first. *)
Lemma selectAll_three_increasing ra rb rc :
  Row.created_at ra < Row.created_at rb ->
  Row.created_at rb < Row.created_at rc ->
  selectAll [ra; rb; rc] = [rc; rb; ra].
Proof.
  intros Hab Hbc. unfold selectAll. cbn.
  assert (Hac : Row.created_at ra < Row.created_at rc) by lia.
  apply Z.ltb_lt in Hab, Hbc, Hac.
  rewrite Hbc. cbn. rewrite Hac. cbn. now rewrite Hab.
Qed.

Lemma mapM_length {A B : Type} (f : A -> result B) l :
  forall bs, mapM f l = Ok bs -> List.length bs = List.length l.
Proof.
  induction l as [| a l IH]; cbn; intros bs H.
  - now injection H as <-.
  - destruct (f a) as [b | e]; cbn in H; [| discriminate].
    destruct (mapM f l) as [bs' | e]; cbn in H; [| discriminate].
    injection H as <-. cbn. f_equal. now apply IH.
Qed.

Lemma deleteById_twice id db :
  deleteById id (deleteById id db) = deleteById id db.
Proof.
  unfold deleteById. induction db as [| r db IH]; [reflexivity |].
  cbn. destruct (jsstring_eqb (Row.id r) id) eqn:E; cbn; [exact IH |].
  rewrite E. cbn. now f_equal.
Qed.

(** On the empty table the list route answers with the empty array. *)
Lemma get_itineraries_empty : get_itineraries [] = res_json (JsonRows []).
Proof. reflexivity. Qed.

(** C4 on the code: three POSTs, A then B then C, within one second of the
    clock of the database.  The list route answers with A, B, C in the
    order of insertion, not with C, B, A. *)
Theorem get_itineraries_same_second :
  exists ra rb rc,
    get_itineraries
      (serve [POST uuid_a noon tokyo; POST uuid_b noon lisbona; POST uuid_c noon oslo] [])
    = res_json (JsonRows [ra; rb; rc])
    /\ Itinerary.id ra = uuid_a /\ Itinerary.id rb = uuid_b /\ Itinerary.id rc = uuid_c
    /\ [ra; rb; rc] <> [rc; rb; ra].
Proof.
  eexists _, _, _. split; [vm_compute; reflexivity |].
  repeat split. discriminate.
Qed.



(** C6: after a DELETE the GET route on the same id answers 404, and a
    second DELETE on the id, now absent, still answers with success. *)
Theorem delete_then_get_then_delete id db :
  let first := delete_itinerary id db in
  let second := delete_itinerary id (snd first) in
  fst first = res_json JsonSuccess
  /\ get_itinerary id (snd first) = res_status_json 404 (JsonError (lit "Not found"))
  /\ signals_NotFound (get_itinerary id (snd first)) = true
  /\ fst second = res_json JsonSuccess
  /\ snd second = snd first.
Proof.
  cbn. unfold get_itinerary. rewrite selectById_deleteById.
  repeat split. apply deleteById_twice.
Qed.

(** C7: a PATCH on an id that is not in the table answers with success and
    leaves the table as it was, so the list route answers as before and
    with as many records. *)
Theorem patch_absent_id id title db :
  selectById id db = None ->
  patch_itinerary id title db = (res_json JsonSuccess, db)
  /\ get_itineraries (snd (patch_itinerary id title db)) = get_itineraries db
  /\ List.length (selectAll (snd (patch_itinerary id title db)))
     = List.length (selectAll db).
Proof.
  intros H. unfold patch_itinerary. cbn [snd].
  rewrite updateTitle_absent by assumption. auto.
Qed.

Lemma patch_absent_id_witness :
  selectById uuid_b [new_row uuid_a noon tokyo] = None
  /\ patch_itinerary uuid_b (Some (lit "New")) [new_row uuid_a noon tokyo]
     = (res_json JsonSuccess, [new_row uuid_a noon tokyo])
  /\ get_itineraries
       (snd (patch_itinerary uuid_b (Some (lit "New")) [new_row uuid_a noon tokyo]))
     = get_itineraries [new_row uuid_a noon tokyo]
  /\ List.length
       (selectAll (snd (patch_itinerary uuid_b (Some (lit "New")) [new_row uuid_a noon tokyo])))
     = List.length (selectAll [new_row uuid_a noon tokyo]).
Proof.
  split; [reflexivity |].
  apply (patch_absent_id uuid_b (Some (lit "New")) [new_row uuid_a noon tokyo]).
  reflexivity.
Defined.

(** C8: a PATCH keeps the number and the order of the rows; the row at each
    position keeps its id, destination, duration, budget, type, interests,
    activities, content and created_at; its title is the new title when its
    id is the id of the request; and it is the same row when its id is
    another one. *)
Theorem patch_changes_only_title id title db :
  let db' := snd (patch_itinerary id title db) in
  List.length db' = List.length db
  /\ forall n r,
       nth_error db n = Some r ->
       exists r',
         nth_error db' n = Some r'
         /\ Row.id r' = Row.id r
         /\ Row.destination r' = Row.destination r
         /\ Row.duration r' = Row.duration r
         /\ Row.budget r' = Row.budget r
         /\ Row.type r' = Row.type r
         /\ Row.interests r' = Row.interests r
         /\ Row.activities r' = Row.activities r
         /\ Row.content r' = Row.content r
         /\ Row.created_at r' = Row.created_at r
         /\ (Row.id r = id -> Row.title r' = title)
         /\ (Row.id r <> id -> r' = r).
Proof.
  cbn. unfold updateTitle. split; [apply length_map |].
  intros n r Hn.
  eexists. split; [apply map_nth_error; exact Hn |].
  destruct (jsstring_eqb (Row.id r) id) eqn:E.
  - apply jsstring_eqb_eq in E. cbn. repeat split; tauto.
  - apply jsstring_eqb_neq in E. repeat split; tauto.
Qed.

Lemma patch_changes_only_title_witness :
  nth_error [new_row uuid_a noon tokyo; new_row uuid_b noon lisbona] 1
  = Some (new_row uuid_b noon lisbona)
  /\ exists r',
       nth_error
         (snd (patch_itinerary uuid_b (Some (lit "New"))
                 [new_row uuid_a noon tokyo; new_row uuid_b noon lisbona])) 1
       = Some r'
       /\ Row.id r' = uuid_b
       /\ Row.destination r' = Some (lit "Lisbona")
       /\ Row.duration r' = Some 3
       /\ Row.budget r' = Some (lit "economico")
       /\ Row.type r' = Some (lit "foodie")
       /\ Row.interests r' = Some (JSON.stringify [lit "Gastronomia"; lit "Storia"])
       /\ Row.activities r' = Some (JSON.stringify [])
       /\ Row.content r' = Some (lit "# Giorno 1")
       /\ Row.created_at r' = noon
       /\ (uuid_b = uuid_b -> Row.title r' = Some (lit "New"))
       /\ (uuid_b <> uuid_b -> r' = new_row uuid_b noon lisbona).
Proof.
  split; [reflexivity |].
  exact (proj2 (patch_changes_only_title uuid_b (Some (lit "New"))
                  [new_row uuid_a noon tokyo; new_row uuid_b noon lisbona])
               1%nat (new_row uuid_b noon lisbona) eq_refl).
Defined.

Lemma get_itinerary_row db row i a :
  unique_ids db ->
  In row db ->
  parse_column (Row.interests row) = Some i ->
  parse_column (Row.activities row) = Some a ->
  get_itinerary (Row.id row) db
  = res_json (JsonRow
      (Itinerary.mk (Row.id row) (read_text (Row.title row))
         (read_text (Row.destination row)) (Row.duration row)
         (read_text (Row.budget row)) (read_text (Row.type row)) i a
         (read_text (Row.content row)) (Row.created_at row))).
Proof.
  intros Huniq Hin Hi Ha. unfold get_itinerary.
  rewrite (selectById_unique db row Huniq Hin).
  now rewrite (decode_parsed row i a Hi Ha).
Qed.

(** C9: the GET route on an id answers with 404, not with a failure, when
    no row has the id.  When a row has the id (ids are the primary key),
    its interests and activities columns hold the encodings of the
    sequences [i] and [a], and its texts are well-formed UTF-16, the route
    answers 200 with the decoded row: the id, title, destination,
    duration, budget, type, content and created_at of the row, and [i] and
    [a] as interests and activities.  On every table the routes can
    produce, the route answers 200 with a record of that id whenever a row
    has the id. *)
Theorem get_itinerary_found_or_NotFound id db :
  (unique_ids db ->
   forall row i a,
     In row db -> Row.id row = id ->
     Row.interests row = Some (JSON.stringify i) ->
     Row.activities row = Some (JSON.stringify a) ->
     survives (Row.title row) -> survives (Row.destination row) ->
     survives (Row.budget row) -> survives (Row.type row) ->
     survives (Row.content row) ->
     get_itinerary id db
     = res_json (JsonRow
         (Itinerary.mk id (Row.title row) (Row.destination row) (Row.duration row)
            (Row.budget row) (Row.type row) (Strings i) (Strings a)
            (Row.content row) (Row.created_at row))))
  /\ ((forall row, In row db -> Row.id row <> id) ->
      get_itinerary id db = res_status_json 404 (JsonError (lit "Not found"))
      /\ signals_NotFound (get_itinerary id db) = true
      /\ status (get_itinerary id db) <> 500)
  /\ (reachable db ->
      forall row, In row db -> Row.id row = id ->
      exists record,
        get_itinerary id db = res_json (JsonRow record)
        /\ Itinerary.id record = id
        /\ Itinerary.duration record = Row.duration row
        /\ Itinerary.created_at record = Row.created_at row).
Proof.
  split; [| split].
  - intros Huniq row i a Hin <- Hi Ha Wt Wd Wb Wy Wc.
    rewrite (get_itinerary_row db row (Strings i) (Strings a) Huniq Hin)
      by (rewrite ?Hi, ?Ha; apply parse_column_stringify).
    now rewrite !read_text_survives by assumption.
  - intros Habsent. apply selectById_None in Habsent.
    unfold get_itinerary. rewrite Habsent. repeat split. discriminate.
  - intros Hreach row Hin <-.
    pose proof (reachable_well_encoded _ Hreach) as Henc.
    pose proof (reachable_unique_ids _ Hreach) as Huniq.
    unfold well_encoded in Henc. rewrite Forall_forall in Henc.
    destruct (Henc row Hin) as (i & a & Hi & Ha).
    eexists. split; [exact (get_itinerary_row db row i a Huniq Hin Hi Ha) |].
    repeat split.
Qed.

Lemma get_itinerary_found_or_NotFound_witness :
  let db := [new_row uuid_a noon tokyo] in
  unique_ids db
  /\ reachable db
  /\ get_itinerary uuid_a db
     = res_json (JsonRow
         (Itinerary.mk uuid_a (Some (lit "Viaggio a Tokyo")) (Some (lit "Tokyo")) (Some 5)
            (Some (lit "medio")) (Some (lit "cultural"))
            (Strings [lit "Arte"]) (Strings [lit "Musei"])
            (Some (lit "# Day 1...")) noon))
  /\ (get_itinerary uuid_b db = res_status_json 404 (JsonError (lit "Not found"))
      /\ signals_NotFound (get_itinerary uuid_b db) = true
      /\ status (get_itinerary uuid_b db) <> 500)
  /\ exists record,
       get_itinerary uuid_a db = res_json (JsonRow record)
       /\ Itinerary.id record = uuid_a
       /\ Itinerary.duration record = Some 5
       /\ Itinerary.created_at record = noon.
Proof.
  intros db.
  assert (Huniq : unique_ids db) by (repeat constructor; intros []).
  assert (Hreach : reachable db)
    by exact (reachable_serve [POST uuid_a noon tokyo] [] reachable_empty).
  assert (Hin : In (new_row uuid_a noon tokyo) db) by (left; reflexivity).
  split; [exact Huniq |]. split; [exact Hreach |]. split; [| split].
  - apply (proj1 (get_itinerary_found_or_NotFound uuid_a db) Huniq
             (new_row uuid_a noon tokyo) [lit "Arte"] [lit "Musei"] Hin);
      try reflexivity; intros text [= <-]; reflexivity.
  - apply (proj1 (proj2 (get_itinerary_found_or_NotFound uuid_b db))).
    intros row [<- | []]. vm_compute. discriminate.
  - exact (proj2 (proj2 (get_itinerary_found_or_NotFound uuid_a db)) Hreach
             (new_row uuid_a noon tokyo) Hin eq_refl).
Defined.

(** *** What the POST route writes to the encoded columns *)

Lemma written_new_row id now b :
  written_column (Row.interests (new_row id now b))
  /\ written_column (Row.activities (new_row id now b)).
Proof.
  assert (H : forall v, written_column (JSON_stringify v)).
  { intros [| | a]; [left | right; left | right; right; exists a]; reflexivity. }
  split; apply H.
Qed.

Lemma written_handle rq db :
  (forall row, In row db ->
     written_column (Row.interests row) /\ written_column (Row.activities row)) ->
  forall row, In row (snd (handle rq db)) ->
    written_column (Row.interests row) /\ written_column (Row.activities row).
Proof.
  intros H row Hin. destruct rq as [uuid now b | | id | id title | id]; cbn in Hin.
  - unfold post_itineraries in Hin.
    destruct (insert _ db) as [db' | e] eqn:E; cbn in Hin; [| now apply H].
    apply insert_Ok in E as [_ ->].
    apply in_app_iff in Hin as [Hin | [<- | []]];
      [now apply H | apply written_new_row].
  - now apply H.
  - now apply H.
  - unfold updateTitle in Hin. apply in_map_iff in Hin as (r & <- & Hr).
    destruct (jsstring_eqb (Row.id r) id); exact (H r Hr).
  - unfold deleteById in Hin. apply filter_In in Hin as [Hin _]. now apply H.
Qed.

Lemma reachable_written db :
  reachable db ->
  forall row, In row db ->
    written_column (Row.interests row) /\ written_column (Row.activities row).
Proof.
  induction 1 as [| rq db _ IH]; [intros row [] | now apply written_handle].
Qed.

Lemma written_json column : written_column column -> json_column column.
Proof.
  intros [-> | [-> | (a & ->)]]; [now left | right | right].
  - exists (lit "null"). split; reflexivity.
  - exists (JSON.stringify a). split; [reflexivity | apply JSONGrammarFacts.valid_stringify].
Qed.

(** C10, as amended: in every table the POST, PATCH and DELETE routes can
    produce, the interests and activities columns of every row are NULL
    or a JSON text, and neither GET route fails in [JSON.parse]: the list
    route answers 200 with one record for each row, the route by id never
    answers with a SyntaxError. *)
Theorem reachable_tables_decode db :
  reachable db ->
  (forall row, In row db ->
     json_column (Row.interests row) /\ json_column (Row.activities row))
  /\ (exists records,
        get_itineraries db = res_json (JsonRows records)
        /\ List.length records = List.length db)
  /\ (forall id, payload (get_itinerary id db) <> Uncaught SyntaxError).
Proof.
  intros Hreach. pose proof (reachable_well_encoded _ Hreach) as Henc.
  split; [| split].
  - intros row Hin. destruct (reachable_written db Hreach row Hin) as [Hi Ha].
    split; now apply written_json.
  - assert (Hsorted : Forall encoded (selectAll db)).
    { unfold well_encoded in Henc. rewrite Forall_forall in *.
      intros r Hr. apply Henc. now apply In_selectAll. }
    destruct (mapM_decode_encoded _ Hsorted) as (records & Hrec).
    exists records. unfold get_itineraries. rewrite Hrec. split; [reflexivity |].
    rewrite <- length_selectAll. exact (mapM_length decode _ _ Hrec).
  - intros id. unfold get_itinerary.
    destruct (selectById id db) as [row |] eqn:Hsel; [| discriminate].
    destruct (selectById_id _ _ _ Hsel) as [_ Hin].
    unfold well_encoded in Henc. rewrite Forall_forall in Henc.
    destruct (Henc row Hin) as (i & a & Hi & Ha).
    rewrite (decode_parsed row i a Hi Ha). discriminate.
Qed.

Lemma reachable_tables_decode_witness :
  let db := serve [POST uuid_a noon tokyo; POST uuid_b noon no_arrays;
                   PATCH uuid_a (Some (lit "New")); DELETE uuid_c] [] in
  reachable db
  /\ (forall row, In row db ->
        json_column (Row.interests row) /\ json_column (Row.activities row))
  /\ (exists records,
        get_itineraries db = res_json (JsonRows records)
        /\ List.length records = List.length db)
  /\ (forall id, payload (get_itinerary id db) <> Uncaught SyntaxError).
Proof.
  intros db.
  assert (Hreach : reachable db) by apply reachable_serve, reachable_empty.
  split; [exact Hreach |].
  exact (reachable_tables_decode db Hreach).
Defined.

(** C10, as stated, fails on the table one POST without [interests] and
    [activities] produces: the two columns of its row are NULL, not the
    encoding of an array. *)
Lemma post_without_arrays_stores_NULL :
  reachable (snd (post_itineraries uuid_a noon no_arrays []))
  /\ ~ (forall row,
          In row (snd (post_itineraries uuid_a noon no_arrays [])) ->
          array_column (Row.interests row) /\ array_column (Row.activities row)).
Proof.
  split.
  - exact (reachable_step (POST uuid_a noon no_arrays) [] reachable_empty).
  - intros H. destruct (H (new_row uuid_a noon no_arrays)) as [(text & a & Hnull & _) _].
    + left. reflexivity.
    + discriminate Hnull.
Qed.

(** * Further properties of the routes *)

(** ** The listing *)

Lemma order_insert_sorted r l :
  StronglySorted not_newer l -> StronglySorted not_newer (order_insert r l).
Proof.
  induction 1 as [| x l Hs IH Hall]; cbn.
  - repeat constructor.
  - destruct (Z.ltb_spec (Row.created_at r) (Row.created_at x)) as [Hlt | Hge].
    + constructor; [exact IH |].
      rewrite Forall_forall in *. intros y Hy.
      apply In_order_insert in Hy as [-> | Hy]; [unfold not_newer; lia | now apply Hall].
    + constructor; [now constructor |].
      constructor; [exact Hge |].
      rewrite Forall_forall in *. intros y Hy.
      specialize (Hall y Hy). unfold not_newer in *. lia.
Qed.

Lemma selectAll_sorted db : StronglySorted not_newer (selectAll db).
Proof.
  unfold selectAll. induction db as [| r db IH]; cbn; [constructor |].
  now apply order_insert_sorted.
Qed.

Lemma order_insert_Permutation r l : Permutation (order_insert r l) (r :: l).
Proof.
  induction l as [| x l IH]; cbn; [reflexivity |].
  destruct (Row.created_at r <? Row.created_at x); [| reflexivity].
  rewrite IH. apply perm_swap.
Qed.

Lemma selectAll_Permutation db : Permutation (selectAll db) db.
Proof.
  unfold selectAll. induction db as [| r db IH]; cbn; [reflexivity |].
  rewrite order_insert_Permutation. now constructor.
Qed.

Lemma order_insert_first r l :
  (forall y, In y l -> not_newer r y) -> order_insert r l = r :: l.
Proof.
  destruct l as [| x l]; intros H; [reflexivity |]. cbn.
  assert (Hx : not_newer r x) by (apply H; now left).
  apply Z.ltb_ge in Hx. now rewrite Hx.
Qed.

(** A filter and the ORDER BY commute: the sorter is stable. *)
Lemma filter_order_insert p r l :
  StronglySorted not_newer l ->
  filter p (order_insert r l)
  = if p r then order_insert r (filter p l) else filter p l.
Proof.
  induction 1 as [| x l Hs IH Hall]; cbn.
  - now destruct (p r).
  - destruct (Z.ltb_spec (Row.created_at r) (Row.created_at x)) as [Hlt | Hge]; cbn.
    + rewrite IH. destruct (p x), (p r); cbn; try reflexivity.
      apply Z.ltb_lt in Hlt. now rewrite Hlt.
    + destruct (p r); [| reflexivity].
      symmetry. apply (order_insert_first r (filter p (x :: l))).
      intros y Hy. apply filter_In in Hy as [Hy _].
      destruct Hy as [<- | Hy]; [exact Hge |].
      rewrite Forall_forall in Hall. specialize (Hall y Hy).
      unfold not_newer in *. lia.
Qed.

Lemma selectAll_filter p db :
  selectAll (filter p db) = filter p (selectAll db).
Proof.
  unfold selectAll. induction db as [| r db IH]; [reflexivity |].
  cbn [order_by_created_at_desc filter].
  rewrite filter_order_insert by apply selectAll_sorted.
  destruct (p r); cbn; now rewrite IH.
Qed.

(** So do the ORDER BY and a change of the rows that keeps [created_at]. *)
Lemma selectAll_map f db :
  (forall r, Row.created_at (f r) = Row.created_at r) ->
  selectAll (List.map f db) = List.map f (selectAll db).
Proof.
  intros Hf. unfold selectAll. induction db as [| r db IH]; [reflexivity |].
  cbn. rewrite IH. generalize (order_by_created_at_desc db) as l.
  induction l as [| x l IHl]; cbn; [reflexivity |].
  rewrite !Hf. destruct (Row.created_at r <? Row.created_at x); cbn;
    [now rewrite IHl | reflexivity].
Qed.

(** *** Decoding a list of rows *)

Lemma mapM_Forall2 {A B : Type} (f : A -> result B) l bs :
  mapM f l = Ok bs <-> Forall2 (fun a b => f a = Ok b) l bs.
Proof.
  revert bs. induction l as [| a l IH]; intros bs; cbn.
  - split; [intros [= <-]; constructor | intros H; now inversion H].
  - split.
    + destruct (f a) as [b | e] eqn:Ea; cbn; [| discriminate].
      destruct (mapM f l) as [bs' | e] eqn:El; cbn; [| discriminate].
      intros [= <-]. constructor; [exact Ea | now apply IH].
    + intros H. inversion H as [| a' b l' bs' Ha Hl]; subst.
      rewrite Ha. cbn. apply IH in Hl. now rewrite Hl.
Qed.

Lemma decode_Ok row record :
  decode row = Ok record ->
  Itinerary.id record = Row.id row
  /\ Itinerary.title record = read_text (Row.title row)
  /\ Itinerary.destination record = read_text (Row.destination row)
  /\ Itinerary.duration record = Row.duration row
  /\ Itinerary.budget record = read_text (Row.budget row)
  /\ Itinerary.type record = read_text (Row.type row)
  /\ Itinerary.content record = read_text (Row.content row)
  /\ Itinerary.created_at record = Row.created_at row
  /\ parse_column (Row.interests row) = Some (Itinerary.interests record)
  /\ parse_column (Row.activities row) = Some (Itinerary.activities record).
Proof.
  unfold decode.
  destruct (parse_column (Row.interests row)); [| discriminate].
  destruct (parse_column (Row.activities row)); [| discriminate].
  intros [= <-]. cbn. repeat split.
Qed.

Lemma get_itineraries_reachable db :
  reachable db ->
  exists records,
    get_itineraries db = res_json (JsonRows records)
    /\ Forall2 (fun row record => decode row = Ok record) (selectAll db) records.
Proof.
  intros Hreach. apply reachable_well_encoded in Hreach as Henc.
  assert (Hsorted : Forall encoded (selectAll db)).
  { unfold well_encoded in Henc. rewrite Forall_forall in *.
    intros r Hr. apply Henc. now apply In_selectAll. }
  destruct (mapM_decode_encoded _ Hsorted) as (records & Hrec).
  exists records. unfold get_itineraries. rewrite Hrec.
  split; [reflexivity | now apply mapM_Forall2].
Qed.

Lemma Forall2_decode_ids rows records :
  Forall2 (fun row record => decode row = Ok record) rows records ->
  List.map Itinerary.id records = List.map Row.id rows.
Proof.
  induction 1 as [| row record rows records H _ IH]; [reflexivity |].
  cbn. rewrite IH. f_equal. now apply decode_Ok in H.
Qed.

Lemma Forall2_decode_sorted rows records :
  Forall2 (fun row record => decode row = Ok record) rows records ->
  StronglySorted not_newer rows -> StronglySorted may_follow records.
Proof.
  induction 1 as [| row record rows records H H2 IH]; intros Hs; [constructor |].
  inversion Hs as [| x l Hs' Hall]; subst.
  constructor; [now apply IH |].
  apply decode_Ok in H as (_ & _ & _ & _ & _ & _ & _ & Hc & _).
  clear IH Hs Hs'. induction H2 as [| row' record' rows records H' _ IH]; [constructor |].
  inversion Hall as [| x l Hx Hall']; subst.
  constructor; [| now apply IH].
  apply decode_Ok in H' as (_ & _ & _ & _ & _ & _ & _ & Hc' & _).
  unfold may_follow, not_newer in *. lia.
Qed.

(** X1: in every table the routes can produce, the list route answers with
    one record for each row of the table and none besides (the ids of the
    answer are a rearrangement of the ids of the table, which are pairwise
    distinct), in an order in which [created_at] never increases. *)
Theorem get_itineraries_complete_and_sorted db :
  reachable db ->
  exists records,
    get_itineraries db = res_json (JsonRows records)
    /\ Permutation (List.map Itinerary.id records) (List.map Row.id db)
    /\ NoDup (List.map Itinerary.id records)
    /\ StronglySorted may_follow records.
Proof.
  intros Hreach.
  destruct (get_itineraries_reachable db Hreach) as (records & Hget & Hdec).
  exists records. split; [exact Hget |].
  assert (Hperm : Permutation (List.map Itinerary.id records) (List.map Row.id db)).
  { rewrite (Forall2_decode_ids _ _ Hdec).
    apply Permutation_map, selectAll_Permutation. }
  split; [exact Hperm |]. split.
  - eapply Permutation_NoDup; [symmetry; exact Hperm |].
    now apply reachable_unique_ids.
  - eapply Forall2_decode_sorted; [exact Hdec | apply selectAll_sorted].
Qed.

Lemma get_itineraries_complete_and_sorted_witness :
  let db := serve [POST uuid_a noon tokyo; POST uuid_b (noon + 60) lisbona;
                   POST uuid_c (noon + 60) oslo] [] in
  reachable db
  /\ exists records,
       get_itineraries db = res_json (JsonRows records)
       /\ Permutation (List.map Itinerary.id records) (List.map Row.id db)
       /\ NoDup (List.map Itinerary.id records)
       /\ StronglySorted may_follow records.
Proof.
  intros db.
  assert (Hreach : reachable db) by apply reachable_serve, reachable_empty.
  split; [exact Hreach |].
  exact (get_itineraries_complete_and_sorted db Hreach).
Defined.

Lemma get_itineraries_inv db records :
  get_itineraries db = res_json (JsonRows records) ->
  mapM decode (selectAll db) = Ok records.
Proof.
  unfold get_itineraries. destruct (mapM decode (selectAll db)); [| discriminate].
  now intros [= ->].
Qed.

(** X2: when the clock of the database is past the second of every row of
    the table, the record of a successful POST is the first of the next
    listing: the first record has the generated id and the second of the
    insertion as [created_at], and the records listed before follow it in
    their order. *)
Theorem post_later_is_listed_first uuid now b db records :
  selectById uuid db = None ->
  (forall r, In r db -> Row.created_at r < now) ->
  get_itineraries db = res_json (JsonRows records) ->
  exists record,
    get_itineraries (snd (post_itineraries uuid now b db))
    = res_json (JsonRows (record :: records))
    /\ Itinerary.id record = uuid
    /\ Itinerary.created_at record = now.
Proof.
  intros Hfresh Hclock Hget. apply get_itineraries_inv in Hget.
  rewrite post_itineraries_fresh by assumption. cbn [snd].
  unfold get_itineraries.
  rewrite selectAll_snoc_newer by exact Hclock.
  cbn [mapM]. rewrite decode_new_row, Hget.
  eexists. split; [reflexivity |]. split; reflexivity.
Qed.

Lemma post_later_is_listed_first_witness :
  selectById uuid_b [new_row uuid_a noon tokyo] = None
  /\ (forall r, In r [new_row uuid_a noon tokyo] -> Row.created_at r < noon + 1)
  /\ exists record,
       get_itineraries
         (snd (post_itineraries uuid_b (noon + 1) lisbona [new_row uuid_a noon tokyo]))
       = res_json (JsonRows
           [record;
            Itinerary.mk uuid_a (Some (lit "Viaggio a Tokyo")) (Some (lit "Tokyo"))
              (Some 5) (Some (lit "medio")) (Some (lit "cultural"))
              (Strings [lit "Arte"]) (Strings [lit "Musei"])
              (Some (lit "# Day 1...")) noon])
       /\ Itinerary.id record = uuid_b
       /\ Itinerary.created_at record = noon + 1.
Proof.
  assert (Hclock : forall r, In r [new_row uuid_a noon tokyo] -> Row.created_at r < noon + 1).
  { intros r [<- | []]. unfold noon. cbn. lia. }
  split; [reflexivity |]. split; [exact Hclock |].
  apply (post_later_is_listed_first uuid_b (noon + 1) lisbona [new_row uuid_a noon tokyo]);
    [reflexivity | exact Hclock | reflexivity].
Defined.

(** ** What a request leaves alone *)

Lemma unique_ids_same_row db r r' :
  unique_ids db -> In r db -> In r' db -> Row.id r' = Row.id r -> r' = r.
Proof.
  intros Huniq Hr Hr' Hid.
  pose proof (selectById_unique db r Huniq Hr) as H1.
  pose proof (selectById_unique db r' Huniq Hr') as H2.
  rewrite Hid in H2. congruence.
Qed.

Lemma same_but_title_refl r : same_but_title r r.
Proof. repeat split. Qed.

Lemma same_but_title_set_title title r : same_but_title r (set_title title r).
Proof. repeat split. Qed.

(** X3: no request changes anything but the title of a row that it keeps.
    On a table the routes can produce, a row after a request that has the
    id of a row before it has the same destination, duration, budget, type,
    interests, activities, content and created_at. *)
Theorem requests_change_only_titles rq db r r' :
  reachable db ->
  In r db ->
  In r' (snd (handle rq db)) ->
  Row.id r' = Row.id r ->
  same_but_title r r'.
Proof.
  intros Hreach Hr Hr' Hid. pose proof (reachable_unique_ids _ Hreach) as Huniq.
  destruct rq as [uuid now b | | id | id title | id]; cbn in Hr'.
  - unfold post_itineraries in Hr'.
    destruct (insert _ db) as [db' | e] eqn:E; cbn in Hr'.
    + apply insert_Ok in E as [Hfresh ->].
      apply in_app_iff in Hr' as [Hr' | [<- | []]].
      * rewrite (unique_ids_same_row db r r' Huniq Hr Hr' Hid). apply same_but_title_refl.
      * exfalso. cbn in Hid, Hfresh.
        apply (proj1 (selectById_None _ _) Hfresh r Hr). now symmetry.
    + rewrite (unique_ids_same_row db r r' Huniq Hr Hr' Hid). apply same_but_title_refl.
  - rewrite (unique_ids_same_row db r r' Huniq Hr Hr' Hid). apply same_but_title_refl.
  - rewrite (unique_ids_same_row db r r' Huniq Hr Hr' Hid). apply same_but_title_refl.
  - unfold updateTitle in Hr'. apply in_map_iff in Hr' as (r0 & <- & Hr0).
    assert (Hid0 : Row.id r0 = Row.id r).
    { rewrite <- Hid. now destruct (jsstring_eqb (Row.id r0) id). }
    rewrite (unique_ids_same_row db r r0 Huniq Hr Hr0 Hid0).
    destruct (jsstring_eqb (Row.id r) id);
      [apply same_but_title_set_title | apply same_but_title_refl].
  - unfold deleteById in Hr'. apply filter_In in Hr' as [Hr' _].
    rewrite (unique_ids_same_row db r r' Huniq Hr Hr' Hid). apply same_but_title_refl.
Qed.

Lemma requests_change_only_titles_witness :
  reachable [new_row uuid_a noon tokyo]
  /\ In (new_row uuid_a noon tokyo) [new_row uuid_a noon tokyo]
  /\ In (set_title None (new_row uuid_a noon tokyo))
        (snd (handle (PATCH uuid_a None) [new_row uuid_a noon tokyo]))
  /\ same_but_title (new_row uuid_a noon tokyo) (set_title None (new_row uuid_a noon tokyo)).
Proof.
  assert (Hreach : reachable [new_row uuid_a noon tokyo])
    by exact (reachable_serve [POST uuid_a noon tokyo] [] reachable_empty).
  split; [exact Hreach |].
  split; [left; reflexivity |]. split; [left; reflexivity |].
  apply (requests_change_only_titles (PATCH uuid_a None) [new_row uuid_a noon tokyo]);
    [exact Hreach | left; reflexivity | left; reflexivity | reflexivity].
Defined.

Lemma selectById_deleteById_other id id' db :
  id' <> id -> selectById id' (deleteById id db) = selectById id' db.
Proof.
  intros Hne. unfold selectById, deleteById.
  induction db as [| r db IH]; [reflexivity |]. cbn.
  destruct (jsstring_eqb (Row.id r) id) eqn:E; cbn.
  - apply jsstring_eqb_eq in E.
    assert (E' : jsstring_eqb (Row.id r) id' = false)
      by (apply jsstring_eqb_neq; congruence).
    now rewrite E'.
  - destruct (jsstring_eqb (Row.id r) id'); [reflexivity | exact IH].
Qed.

Lemma Forall2_decode_filter id rows records :
  Forall2 (fun row record => decode row = Ok record) rows records ->
  Forall2 (fun row record => decode row = Ok record)
    (filter (fun r => negb (jsstring_eqb (Row.id r) id)) rows)
    (filter (fun r => negb (jsstring_eqb (Itinerary.id r) id)) records).
Proof.
  induction 1 as [| row record rows records H _ IH]; [constructor |].
  cbn. pose proof (decode_Ok _ _ H) as [-> _].
  destruct (jsstring_eqb (Row.id row) id); cbn; [exact IH | now constructor].
Qed.

(** X4: a DELETE removes the record of its id and no other.  The GET route
    answers as before on every other id, and the list route answers with the
    records it listed before, in the same order, less the one deleted. *)
Theorem delete_leaves_the_others id db :
  (forall id', id' <> id ->
     get_itinerary id' (snd (delete_itinerary id db)) = get_itinerary id' db)
  /\ (forall records,
        get_itineraries db = res_json (JsonRows records) ->
        get_itineraries (snd (delete_itinerary id db))
        = res_json (JsonRows
            (filter (fun r => negb (jsstring_eqb (Itinerary.id r) id)) records))).
Proof.
  split.
  - intros id' Hne. cbn. unfold get_itinerary.
    now rewrite selectById_deleteById_other.
  - intros records Hget. apply get_itineraries_inv, mapM_Forall2 in Hget.
    cbn. unfold get_itineraries, deleteById. rewrite selectAll_filter.
    apply (Forall2_decode_filter id), mapM_Forall2 in Hget. now rewrite Hget.
Qed.

Lemma delete_leaves_the_others_witness :
  let db := [new_row uuid_a noon tokyo; new_row uuid_b noon lisbona] in
  uuid_a <> uuid_b
  /\ get_itinerary uuid_a (snd (delete_itinerary uuid_b db)) = get_itinerary uuid_a db
  /\ get_itineraries (snd (delete_itinerary uuid_b db))
     = res_json (JsonRows
         [Itinerary.mk uuid_a (Some (lit "Viaggio a Tokyo")) (Some (lit "Tokyo")) (Some 5)
            (Some (lit "medio")) (Some (lit "cultural"))
            (Strings [lit "Arte"]) (Strings [lit "Musei"])
            (Some (lit "# Day 1...")) noon]).
Proof.
  intros db.
  assert (Hne : uuid_a <> uuid_b) by discriminate.
  split; [exact Hne |]. split.
  - exact (proj1 (delete_leaves_the_others uuid_b db) uuid_a Hne).
  - exact (proj2 (delete_leaves_the_others uuid_b db) _ eq_refl).
Defined.

Lemma selectById_updateTitle id id' title db :
  selectById id' (updateTitle id title db)
  = option_map (fun r => if jsstring_eqb (Row.id r) id then set_title title r else r)
      (selectById id' db).
Proof.
  unfold selectById, updateTitle. induction db as [| r db IH]; [reflexivity |].
  cbn. destruct (jsstring_eqb (Row.id r) id) eqn:E; cbn;
    (destruct (jsstring_eqb (Row.id r) id'); [cbn; now rewrite E | exact IH]).
Qed.

Lemma decode_set_title title row record :
  decode row = Ok record ->
  decode (set_title title row) = Ok (record_set_title (read_text title) record).
Proof.
  unfold decode. cbn [set_title Row.id Row.title Row.destination Row.duration
    Row.budget Row.type Row.interests Row.activities Row.content Row.created_at].
  destruct (parse_column (Row.interests row)); [| discriminate].
  destruct (parse_column (Row.activities row)); [| discriminate].
  intros [= <-]. reflexivity.
Qed.

Lemma get_itinerary_inv id db record :
  get_itinerary id db = res_json (JsonRow record) ->
  exists row, selectById id db = Some row /\ decode row = Ok record.
Proof.
  unfold get_itinerary. destruct (selectById id db) as [row |]; [| discriminate].
  destruct (decode row) as [record' | e] eqn:Hdec; [| discriminate].
  intros [= <-]. exists row. split; [reflexivity | exact Hdec].
Qed.

Lemma Forall2_decode_updateTitle id title rows records :
  Forall2 (fun row record => decode row = Ok record) rows records ->
  Forall2 (fun row record => decode row = Ok record)
    (List.map (fun r => if jsstring_eqb (Row.id r) id then set_title title r else r) rows)
    (List.map (fun r => if jsstring_eqb (Itinerary.id r) id
                        then record_set_title (read_text title) r else r) records).
Proof.
  induction 1 as [| row record rows records H _ IH]; [constructor |].
  cbn. constructor; [| exact IH].
  pose proof (decode_Ok _ _ H) as [-> _].
  destruct (jsstring_eqb (Row.id row) id); [now apply decode_set_title | exact H].
Qed.

(** X5: a PATCH is read back.  For a title that is well-formed UTF-16 (no
    surrogate outside a pair), or no title: when the GET route answers
    with a record on an id, after a PATCH of that id it answers with the
    same record under the new title (null when the body has no title), and
    the list route answers with the records it listed before, in the same
    order, the patched one under its new title.  For every title, the GET
    route answers on every other id as before. *)
Theorem patch_then_get id title db :
  (survives title ->
   forall record,
     get_itinerary id db = res_json (JsonRow record) ->
     get_itinerary id (snd (patch_itinerary id title db))
     = res_json (JsonRow (record_set_title title record)))
  /\ (forall id', id' <> id ->
        get_itinerary id' (snd (patch_itinerary id title db)) = get_itinerary id' db)
  /\ (survives title ->
      forall records,
        get_itineraries db = res_json (JsonRows records) ->
        get_itineraries (snd (patch_itinerary id title db))
        = res_json (JsonRows
            (List.map (fun r => if jsstring_eqb (Itinerary.id r) id
                                then record_set_title title r else r) records))).
Proof.
  cbn [patch_itinerary snd]. repeat split.
  - intros Hwf record Hget. apply get_itinerary_inv in Hget as (row & Hsel & Hdec).
    unfold get_itinerary. rewrite selectById_updateTitle, Hsel. cbn.
    apply selectById_id in Hsel as [Hid _]. apply jsstring_eqb_eq in Hid.
    rewrite Hid. rewrite (decode_set_title title row record Hdec).
    now rewrite (read_text_survives title Hwf).
  - intros id' Hne. unfold get_itinerary. rewrite selectById_updateTitle.
    destruct (selectById id' db) as [row |] eqn:Hsel; [| reflexivity]. cbn.
    apply selectById_id in Hsel as [Hid _].
    assert (E : jsstring_eqb (Row.id row) id = false)
      by (apply jsstring_eqb_neq; congruence).
    now rewrite E.
  - intros Hwf records Hget. apply get_itineraries_inv, mapM_Forall2 in Hget.
    unfold get_itineraries, updateTitle.
    rewrite selectAll_map
      by (intros r; now destruct (jsstring_eqb (Row.id r) id)).
    apply (Forall2_decode_updateTitle id title), mapM_Forall2 in Hget.
    rewrite Hget. now rewrite (read_text_survives title Hwf).
Qed.

Lemma patch_then_get_witness :
  let db := [new_row uuid_a noon tokyo; new_row uuid_b noon lisbona] in
  survives (Some (lit "Giappone"))
  /\ get_itinerary uuid_a (snd (patch_itinerary uuid_a (Some (lit "Giappone")) db))
     = res_json (JsonRow
         (Itinerary.mk uuid_a (Some (lit "Giappone")) (Some (lit "Tokyo")) (Some 5)
            (Some (lit "medio")) (Some (lit "cultural"))
            (Strings [lit "Arte"]) (Strings [lit "Musei"])
            (Some (lit "# Day 1...")) noon))
  /\ get_itinerary uuid_a (snd (patch_itinerary uuid_a None db))
     = res_json (JsonRow
         (Itinerary.mk uuid_a None (Some (lit "Tokyo")) (Some 5)
            (Some (lit "medio")) (Some (lit "cultural"))
            (Strings [lit "Arte"]) (Strings [lit "Musei"])
            (Some (lit "# Day 1...")) noon))
  /\ get_itinerary uuid_b (snd (patch_itinerary uuid_a None db))
     = get_itinerary uuid_b db
  /\ get_itineraries (snd (patch_itinerary uuid_b (Some (lit "Giappone")) db))
     = res_json (JsonRows
         [Itinerary.mk uuid_a (Some (lit "Viaggio a Tokyo")) (Some (lit "Tokyo")) (Some 5)
            (Some (lit "medio")) (Some (lit "cultural"))
            (Strings [lit "Arte"]) (Strings [lit "Musei"])
            (Some (lit "# Day 1...")) noon;
          Itinerary.mk uuid_b (Some (lit "Giappone")) (Some (lit "Lisbona")) (Some 3)
            (Some (lit "economico")) (Some (lit "foodie"))
            (Strings [lit "Gastronomia"; lit "Storia"]) (Strings [])
            (Some (lit "# Giorno 1")) noon]).
Proof.
  intros db.
  assert (Hwf : survives (Some (lit "Giappone"))) by (intros text [= <-]; reflexivity).
  assert (Hnone : survives None) by (intros text [=]).
  split; [exact Hwf |]. split; [| split; [| split]].
  - exact (proj1 (patch_then_get uuid_a (Some (lit "Giappone")) db) Hwf _ eq_refl).
  - exact (proj1 (patch_then_get uuid_a None db) Hnone _ eq_refl).
  - apply (proj1 (proj2 (patch_then_get uuid_a None db))). discriminate.
  - exact (proj2 (proj2 (patch_then_get uuid_b (Some (lit "Giappone")) db)) Hwf _ eq_refl).
Defined.

(** X6: of two PATCHes of one id the later wins: the table is the one the
    later PATCH alone produces. *)
Theorem patch_twice id title1 title2 db :
  snd (patch_itinerary id title2 (snd (patch_itinerary id title1 db)))
  = snd (patch_itinerary id title2 db).
Proof.
  cbn. unfold updateTitle. rewrite map_map. apply map_ext. intros r.
  destruct (jsstring_eqb (Row.id r) id) eqn:E; cbn; now rewrite E.
Qed.

Lemma post_itineraries_key_taken uuid now b db row :
  selectById uuid db = Some row ->
  post_itineraries uuid now b db
  = (res_uncaught SqliteError_CONSTRAINT_PRIMARYKEY, db).
Proof.
  intros Hsel. unfold post_itineraries, insert. cbn [Row.id new_row].
  destruct (existsb _ db) eqn:E; [reflexivity |].
  apply existsb_selectById in E. congruence.
Qed.

(** X7: a POST never overwrites.  A row that the SELECT by id finds before
    a POST is found unchanged after it, whatever the generated id, and the
    GET route answers on its id as before; when the generated id is already
    a key, the POST answers 500 with the constraint error and the table is
    the same. *)
Theorem post_never_overwrites uuid now b db :
  (forall id row,
     selectById id db = Some row ->
     selectById id (snd (post_itineraries uuid now b db)) = Some row
     /\ get_itinerary id (snd (post_itineraries uuid now b db)) = get_itinerary id db)
  /\ (forall row,
        selectById uuid db = Some row ->
        post_itineraries uuid now b db
        = (res_uncaught SqliteError_CONSTRAINT_PRIMARYKEY, db)).
Proof.
  split.
  - intros id row Hsel.
    assert (H : selectById id (snd (post_itineraries uuid now b db)) = Some row).
    { unfold post_itineraries.
      destruct (insert _ db) as [db' | e] eqn:E; cbn [snd]; [| exact Hsel].
      apply insert_Ok in E as [_ ->]. now rewrite selectById_snoc, Hsel. }
    split; [exact H |]. unfold get_itinerary. now rewrite H, Hsel.
  - intros row Hsel. now apply post_itineraries_key_taken with (row := row).
Qed.

Lemma post_never_overwrites_witness :
  selectById uuid_a [new_row uuid_a noon tokyo] = Some (new_row uuid_a noon tokyo)
  /\ selectById uuid_a
       (snd (post_itineraries uuid_a (noon + 5) lisbona [new_row uuid_a noon tokyo]))
     = Some (new_row uuid_a noon tokyo)
  /\ post_itineraries uuid_a (noon + 5) lisbona [new_row uuid_a noon tokyo]
     = (res_uncaught SqliteError_CONSTRAINT_PRIMARYKEY, [new_row uuid_a noon tokyo]).
Proof.
  split; [reflexivity |]. split.
  - exact (proj1 (proj1 (post_never_overwrites uuid_a (noon + 5) lisbona
                           [new_row uuid_a noon tokyo])
                           uuid_a (new_row uuid_a noon tokyo) eq_refl)).
  - exact (proj2 (post_never_overwrites uuid_a (noon + 5) lisbona
                    [new_row uuid_a noon tokyo])
                 (new_row uuid_a noon tokyo) eq_refl).
Defined.

Lemma deleteById_absent id db :
  (forall row, In row db -> Row.id row <> id) -> deleteById id db = db.
Proof.
  unfold deleteById. induction db as [| r db IH]; intros Habsent; [reflexivity |].
  cbn. assert (E : jsstring_eqb (Row.id r) id = false).
  { apply jsstring_eqb_neq. apply Habsent. now left. }
  rewrite E. cbn. f_equal. apply IH. intros row Hin. apply Habsent. now right.
Qed.

Lemma length_deleteById_present id db :
  unique_ids db ->
  (exists row, In row db /\ Row.id row = id) ->
  S (List.length (deleteById id db)) = List.length db.
Proof.
  unfold unique_ids. induction db as [| r db IH]; intros Huniq (row & Hin & Hid).
  - destruct Hin.
  - inversion Huniq as [| x l Hnotin Hrest]; subst.
    unfold deleteById. cbn. fold (deleteById (Row.id row) db).
    destruct (jsstring_eqb (Row.id r) (Row.id row)) eqn:E; cbn.
    + apply jsstring_eqb_eq in E. rewrite deleteById_absent; [reflexivity |].
      intros y Hy Hyid. apply Hnotin. rewrite E, <- Hyid. now apply in_map.
    + f_equal. apply IH; [exact Hrest |].
      destruct Hin as [-> | Hin]; [now rewrite jsstring_eqb_refl in E |].
      now exists row.
Qed.

(** X8: on a table the routes can produce, a successful POST adds exactly
    one row, a DELETE of an id that a row has removes exactly one row, a
    DELETE of an id that no row has removes none, and a PATCH neither adds
    nor removes. *)
Theorem table_size_after_request db :
  reachable db ->
  (forall uuid now b,
     selectById uuid db = None ->
     List.length (snd (post_itineraries uuid now b db)) = S (List.length db))
  /\ (forall id row,
        In row db -> Row.id row = id ->
        S (List.length (snd (delete_itinerary id db))) = List.length db)
  /\ (forall id,
        (forall row, In row db -> Row.id row <> id) ->
        snd (delete_itinerary id db) = db)
  /\ (forall id title,
        List.length (snd (patch_itinerary id title db)) = List.length db).
Proof.
  intros Hreach. repeat split.
  - intros uuid now b Hfresh. rewrite post_itineraries_fresh by assumption.
    cbn. rewrite length_app. cbn. lia.
  - intros id row Hin Hid. cbn. apply length_deleteById_present; eauto.
    now apply reachable_unique_ids.
  - intros id Habsent. cbn. now apply deleteById_absent.
  - intros id title. cbn. unfold updateTitle. apply length_map.
Qed.

Lemma table_size_after_request_witness :
  let db := [new_row uuid_a noon tokyo; new_row uuid_b noon lisbona] in
  reachable db
  /\ List.length (snd (post_itineraries uuid_c noon oslo db)) = 3%nat
  /\ S (List.length (snd (delete_itinerary uuid_a db))) = 2%nat
  /\ snd (delete_itinerary uuid_c db) = db
  /\ List.length (snd (patch_itinerary uuid_a None db)) = 2%nat.
Proof.
  intros db.
  assert (Hreach : reachable db)
    by exact (reachable_serve [POST uuid_a noon tokyo; POST uuid_b noon lisbona] []
                reachable_empty).
  destruct (table_size_after_request db Hreach) as (Hpost & Hdel & Habsent & Hpatch).
  split; [exact Hreach |]. split; [| split; [| split]].
  - apply Hpost. reflexivity.
  - apply (Hdel uuid_a (new_row uuid_a noon tokyo)); [left |]; reflexivity.
  - apply Habsent. intros row [<- | [<- | []]]; discriminate.
  - apply Hpatch.
Defined.

(** ** The encoded columns *)

(** X9: two different sequences of strings never have the same encoding:
    what [JSON.stringify] writes to the interests and activities columns
    determines the sequence. *)
Theorem stringify_injective (a b : list jsstring) :
  a <> b -> JSON.stringify a <> JSON.stringify b.
Proof.
  intros Hne Heq. apply Hne.
  pose proof (JSONFacts.parse_stringify a) as Ha.
  rewrite Heq, JSONFacts.parse_stringify in Ha. congruence.
Qed.

Lemma stringify_injective_witness :
  [lit "Arte"; lit "Storia"] <> [lit "Storia"; lit "Arte"]
  /\ JSON.stringify [lit "Arte"; lit "Storia"] <> JSON.stringify [lit "Storia"; lit "Arte"].
Proof.
  assert (Hne : [lit "Arte"; lit "Storia"] <> [lit "Storia"; lit "Arte"]) by discriminate.
  split; [exact Hne | exact (stringify_injective _ _ Hne)].
Defined.

(** ** The chips of the form *)

Lemma includes_In a x : includes a x = true <-> In x a.
Proof.
  unfold includes. rewrite existsb_exists. split.
  - intros (i & Hin & Heq). apply jsstring_eqb_eq in Heq. now subst.
  - intros Hin. exists x. split; [exact Hin | apply jsstring_eqb_refl].
Qed.

Lemma includes_false a x : includes a x = false <-> ~ In x a.
Proof.
  rewrite <- includes_In. now destruct (includes a x).
Qed.

Lemma In_toggle x a y :
  In y (toggle x a) <-> (y <> x /\ In y a) \/ (y = x /\ ~ In x a).
Proof.
  unfold toggle. destruct (includes a x) eqn:E.
  - apply includes_In in E. rewrite filter_In, negb_true_iff, jsstring_eqb_neq.
    split; [intros [Hin Hne]; left; tauto |].
    intros [[Hne Hin] | [-> Hnot]]; tauto.
  - apply includes_false in E. rewrite in_app_iff. cbn. split.
    + intros [Hin | [<- | []]]; [left | right; tauto].
      split; [intros -> | exact Hin]. tauto.
    + intros [[Hne Hin] | [-> _]]; tauto.
Qed.

Lemma includes_toggle x a y :
  includes (toggle x a) y
  = if jsstring_eqb y x then negb (includes a x) else includes a y.
Proof.
  destruct (jsstring_eqb y x) eqn:Eyx.
  - apply jsstring_eqb_eq in Eyx. subst y.
    destruct (includes a x) eqn:E; cbn.
    + apply includes_false. rewrite In_toggle. apply includes_In in E. tauto.
    + apply includes_In. rewrite In_toggle. apply includes_false in E. tauto.
  - apply jsstring_eqb_neq in Eyx.
    destruct (includes a y) eqn:E.
    + apply includes_In. rewrite In_toggle. apply includes_In in E. tauto.
    + apply includes_false. rewrite In_toggle. apply includes_false in E. tauto.
Qed.

(** X10: a click on a chip flips that chip and no other.  After
    [toggleInterest x] the interest [x] is selected exactly when it was not
    before, every other interest is selected exactly when it was before,
    and the destination, duration, budget, type and activities are the
    same; likewise for [toggleActivity] and the activities. *)
Theorem toggle_flips_one_chip x d :
  (includes (TripDetails.interests (toggleInterest x d)) x
   = negb (includes (TripDetails.interests d) x)
   /\ (forall y, y <> x ->
         includes (TripDetails.interests (toggleInterest x d)) y
         = includes (TripDetails.interests d) y)
   /\ TripDetails.destination (toggleInterest x d) = TripDetails.destination d
   /\ TripDetails.duration (toggleInterest x d) = TripDetails.duration d
   /\ TripDetails.budget (toggleInterest x d) = TripDetails.budget d
   /\ TripDetails.type (toggleInterest x d) = TripDetails.type d
   /\ TripDetails.activities (toggleInterest x d) = TripDetails.activities d)
  /\ (includes (TripDetails.activities (toggleActivity x d)) x
      = negb (includes (TripDetails.activities d) x)
      /\ (forall y, y <> x ->
            includes (TripDetails.activities (toggleActivity x d)) y
            = includes (TripDetails.activities d) y)
      /\ TripDetails.destination (toggleActivity x d) = TripDetails.destination d
      /\ TripDetails.duration (toggleActivity x d) = TripDetails.duration d
      /\ TripDetails.budget (toggleActivity x d) = TripDetails.budget d
      /\ TripDetails.type (toggleActivity x d) = TripDetails.type d
      /\ TripDetails.interests (toggleActivity x d) = TripDetails.interests d).
Proof.
  unfold toggleInterest, toggleActivity.
  cbn [TripDetails.interests TripDetails.activities TripDetails.destination
       TripDetails.duration TripDetails.budget TripDetails.type].
  split; (split; [| split; [| repeat split]]).
  - now rewrite includes_toggle, jsstring_eqb_refl.
  - intros y Hne. rewrite includes_toggle.
    apply jsstring_eqb_neq in Hne. now rewrite Hne.
  - now rewrite includes_toggle, jsstring_eqb_refl.
  - intros y Hne. rewrite includes_toggle.
    apply jsstring_eqb_neq in Hne. now rewrite Hne.
Qed.

Lemma filter_other_snoc x (a : list jsstring) :
  filter (fun i => negb (jsstring_eqb i x)) (a ++ [x])
  = filter (fun i => negb (jsstring_eqb i x)) a.
Proof.
  rewrite filter_app. cbn. rewrite jsstring_eqb_refl. cbn. apply app_nil_r.
Qed.

Lemma filter_other_absent x (a : list jsstring) :
  ~ In x a -> filter (fun i => negb (jsstring_eqb i x)) a = a.
Proof.
  induction a as [| y a IH]; intros Hnot; [reflexivity |]. cbn.
  assert (E : jsstring_eqb y x = false).
  { apply jsstring_eqb_neq. intros ->. apply Hnot. now left. }
  rewrite E. cbn. f_equal. apply IH. intros Hin. apply Hnot. now right.
Qed.

Lemma filter_filter_same {A : Type} (p : A -> bool) l :
  filter p (filter p l) = filter p l.
Proof.
  induction l as [| y l IH]; [reflexivity |]. cbn.
  destruct (p y) eqn:E; cbn; [rewrite E; now f_equal | exact IH].
Qed.

Lemma NoDup_toggle x a : NoDup a -> NoDup (toggle x a).
Proof.
  unfold toggle. destruct (includes a x) eqn:E; intros Hnd.
  - now apply NoDup_filter.
  - apply includes_false in E.
    apply NoDup_app; [exact Hnd | repeat constructor; intros [] |].
    intros y Hy [<- | []]. contradiction.
Qed.

(** X11: a click on a chip keeps the other selected values in their order
    and introduces no duplicate: the array without [x] is the same before
    and after [toggle x], and an array without duplicates stays so. *)
Theorem toggle_keeps_the_others x a :
  filter (fun i => negb (jsstring_eqb i x)) (toggle x a)
  = filter (fun i => negb (jsstring_eqb i x)) a
  /\ (NoDup a -> NoDup (toggle x a)).
Proof.
  split; [| apply NoDup_toggle].
  unfold toggle. destruct (includes a x) eqn:E.
  - apply filter_filter_same.
  - apply filter_other_snoc.
Qed.

Lemma toggle_keeps_the_others_witness :
  NoDup [lit "Arte"; lit "Storia"; lit "Relax"]
  /\ NoDup (toggle (lit "Storia") [lit "Arte"; lit "Storia"; lit "Relax"]).
Proof.
  assert (Hnd : NoDup [lit "Arte"; lit "Storia"; lit "Relax"]).
  { repeat constructor; cbn; intuition discriminate. }
  split; [exact Hnd |].
  exact (proj2 (toggle_keeps_the_others (lit "Storia") _) Hnd).
Defined.

(** X12: two clicks on one chip.  On a chip that was not selected they
    restore the array; on a chip that was selected they leave the same
    values selected, with [x] moved to the end. *)
Theorem toggle_twice x a :
  (includes a x = false -> toggle x (toggle x a) = a)
  /\ (includes a x = true ->
      toggle x (toggle x a)
      = (filter (fun i => negb (jsstring_eqb i x)) a ++ [x])%list).
Proof.
  split; intros E.
  - unfold toggle at 2. rewrite E.
    unfold toggle.
    assert (E' : includes (a ++ [x]) x = true)
      by (apply includes_In, in_app_iff; right; now left).
    rewrite E', filter_other_snoc.
    apply filter_other_absent. now apply includes_false.
  - unfold toggle at 2. rewrite E. unfold toggle.
    assert (E' : includes (filter (fun i => negb (jsstring_eqb i x)) a) x = false).
    { apply includes_false. rewrite filter_In, negb_true_iff, jsstring_eqb_neq. tauto. }
    now rewrite E'.
Qed.

Lemma toggle_twice_witness :
  includes [lit "Arte"] (lit "Storia") = false
  /\ toggle (lit "Storia") (toggle (lit "Storia") [lit "Arte"]) = [lit "Arte"]
  /\ includes [lit "Storia"; lit "Arte"] (lit "Storia") = true
  /\ toggle (lit "Storia") (toggle (lit "Storia") [lit "Storia"; lit "Arte"])
     = [lit "Arte"; lit "Storia"].
Proof.
  split; [reflexivity |].
  split; [exact (proj1 (toggle_twice (lit "Storia") [lit "Arte"]) eq_refl) |].
  split; [reflexivity |].
  exact (proj2 (toggle_twice (lit "Storia") [lit "Storia"; lit "Arte"]) eq_refl).
Defined.

Lemma clickInterests_interests clicks : forall d,
  TripDetails.interests (clickInterests clicks d)
  = fold_left (fun a x => toggle x a) clicks (TripDetails.interests d).
Proof.
  unfold clickInterests. induction clicks as [| x clicks IH]; intros d; [reflexivity |].
  cbn. now rewrite IH.
Qed.

Lemma clickActivities_activities clicks : forall d,
  TripDetails.activities (clickActivities clicks d)
  = fold_left (fun a x => toggle x a) clicks (TripDetails.activities d).
Proof.
  unfold clickActivities. induction clicks as [| x clicks IH]; intros d; [reflexivity |].
  cbn. now rewrite IH.
Qed.

Lemma clickInterests_activities clicks : forall d,
  TripDetails.activities (clickInterests clicks d) = TripDetails.activities d.
Proof.
  unfold clickInterests. induction clicks as [| x clicks IH]; intros d; [reflexivity |].
  cbn. now rewrite IH.
Qed.

Lemma clickActivities_interests clicks : forall d,
  TripDetails.interests (clickActivities clicks d) = TripDetails.interests d.
Proof.
  unfold clickActivities. induction clicks as [| x clicks IH]; intros d; [reflexivity |].
  cbn. now rewrite IH.
Qed.

Lemma toggles_within (choices clicks : list jsstring) : forall a,
  Forall (fun x => In x choices) clicks ->
  NoDup a -> incl a choices ->
  NoDup (fold_left (fun a x => toggle x a) clicks a)
  /\ incl (fold_left (fun a x => toggle x a) clicks a) choices.
Proof.
  induction clicks as [| x clicks IH]; intros a Hclicks Hnd Hincl; [now split |].
  inversion Hclicks as [| y l Hx Hrest]; subst. cbn. apply IH.
  - exact Hrest.
  - now apply NoDup_toggle.
  - intros y Hy. apply In_toggle in Hy as [[_ Hy] | [-> _]]; [now apply Hincl | exact Hx].
Qed.

(** X13: whatever chips are clicked, in whatever order and however often,
    the form that started with nothing selected holds each interest at most
    once and only interests of [INTERESTS], so at most eight, and each
    activity at most once and only activities of [ACTIVITY_TYPES], so at
    most six. *)
Theorem chips_select_without_duplicates clicks clicks' :
  Forall (fun x => In x INTERESTS) clicks ->
  Forall (fun x => In x ACTIVITY_TYPES) clicks' ->
  let d := clickActivities clicks' (clickInterests clicks (App.details App.initial)) in
  NoDup (TripDetails.interests d)
  /\ incl (TripDetails.interests d) INTERESTS
  /\ (List.length (TripDetails.interests d) <= 8)%nat
  /\ NoDup (TripDetails.activities d)
  /\ incl (TripDetails.activities d) ACTIVITY_TYPES
  /\ (List.length (TripDetails.activities d) <= 6)%nat.
Proof.
  intros Hi Ha d.
  assert (Hint : TripDetails.interests d
                 = fold_left (fun a x => toggle x a) clicks []).
  { unfold d. now rewrite clickActivities_interests, clickInterests_interests. }
  assert (Hact : TripDetails.activities d
                 = fold_left (fun a x => toggle x a) clicks' []).
  { unfold d. now rewrite clickActivities_activities, clickInterests_activities. }
  rewrite Hint, Hact.
  destruct (toggles_within INTERESTS clicks [] Hi) as [Hnd Hincl];
    [constructor | intros y [] |].
  destruct (toggles_within ACTIVITY_TYPES clicks' [] Ha) as [Hnd' Hincl'];
    [constructor | intros y [] |].
  repeat split; try assumption.
  - apply (NoDup_incl_length Hnd Hincl).
  - apply (NoDup_incl_length Hnd' Hincl').
Qed.

Lemma chips_select_without_duplicates_witness :
  let clicks := [lit "Arte"; lit "Storia"; lit "Arte"; lit "Relax"; lit "Arte"] in
  let clicks' := [lit "Musei"; lit "Musei"] in
  let d := clickActivities clicks' (clickInterests clicks (App.details App.initial)) in
  Forall (fun x => In x INTERESTS) clicks
  /\ Forall (fun x => In x ACTIVITY_TYPES) clicks'
  /\ NoDup (TripDetails.interests d)
  /\ incl (TripDetails.interests d) INTERESTS
  /\ (List.length (TripDetails.interests d) <= 8)%nat
  /\ NoDup (TripDetails.activities d)
  /\ incl (TripDetails.activities d) ACTIVITY_TYPES
  /\ (List.length (TripDetails.activities d) <= 6)%nat.
Proof.
  intros clicks clicks' d.
  assert (Hi : Forall (fun x => In x INTERESTS) clicks).
  { repeat constructor; cbn; tauto. }
  assert (Ha : Forall (fun x => In x ACTIVITY_TYPES) clicks').
  { repeat constructor; cbn; tauto. }
  split; [exact Hi |]. split; [exact Ha |].
  exact (chips_select_without_duplicates clicks clicks' Hi Ha).
Defined.

(** ** The page and the routes *)

Lemma Forall2_decode_In rows records row :
  Forall2 (fun row record => decode row = Ok record) rows records ->
  In row rows ->
  exists record, decode row = Ok record /\ In record records.
Proof.
  induction 1 as [| row' record' rows records H _ IH]; intros Hin; [destruct Hin |].
  destruct Hin as [-> | Hin].
  - exists record'. split; [exact H | now left].
  - destruct (IH Hin) as (record & Hd & Hr).
    exists record. split; [exact Hd | now right].
Qed.

Lemma get_itineraries_reachable_In db row :
  reachable db -> In row db ->
  exists records record,
    get_itineraries db = res_json (JsonRows records)
    /\ decode row = Ok record /\ In record records.
Proof.
  intros Hreach Hin.
  destruct (get_itineraries_reachable db Hreach) as (records & Hget & Hdec).
  apply In_selectAll in Hin.
  destruct (Forall2_decode_In _ _ _ Hdec Hin) as (record & Hd & Hr).
  now exists records, record.
Qed.

Lemma reachable_post uuid now b db :
  reachable db -> reachable (snd (post_itineraries uuid now b db)).
Proof. intros H. exact (reachable_step (POST uuid now b) db H). Qed.

Lemma reachable_delete id db : reachable db -> reachable (deleteById id db).
Proof. intros H. exact (reachable_step (DELETE id) db H). Qed.

Lemma default_title_nonempty d :
  or_else (present (lit "Viaggio a " ++ d)%list) (default_title (present d))
  = (lit "Viaggio a " ++ d)%list.
Proof. reflexivity. Qed.

(** The row the POST route binds for the body of [saveTrip]. *)
Lemma saveTrip_row uuid now s content d du bu ty i a :
  App.details s = TripDetails.mk (Some d) (Some du) (Some bu) (Some ty) i a ->
  new_row uuid now (saveTrip_body s content)
  = Row.mk uuid (Some (lit "Viaggio a " ++ d)%list) (Some d)
      (match du with Num n => Some n | NaN => None end)
      (Some bu) (Some ty) (Some (JSON.stringify i)) (Some (JSON.stringify a))
      (Some content) now.
Proof.
  intros Hd. unfold new_row, saveTrip_body. rewrite Hd.
  cbn [TripDetails.destination TripDetails.duration TripDetails.budget TripDetails.type
       TripDetails.interests TripDetails.activities
       Body.title Body.destination Body.duration Body.budget Body.type
       Body.interests Body.activities Body.content
       posted posted_number bound JSON_stringify ToString_null].
  rewrite default_title_nonempty. now destruct du.
Qed.

Lemma decode_saved_row uuid now d stored bu ty i a content :
  isWellFormed d = true -> isWellFormed bu = true -> isWellFormed ty = true ->
  isWellFormed content = true ->
  decode (Row.mk uuid (Some (lit "Viaggio a " ++ d)%list) (Some d) stored
            (Some bu) (Some ty) (Some (JSON.stringify i)) (Some (JSON.stringify a))
            (Some content) now)
  = Ok (Itinerary.mk uuid (Some (lit "Viaggio a " ++ d)%list) (Some d) stored
          (Some bu) (Some ty) (Strings i) (Strings a) (Some content) now).
Proof.
  intros Wd Wbu Wty Wc.
  rewrite (decode_parsed _ (Strings i) (Strings a)) by apply parse_column_stringify.
  cbn [Row.id Row.title Row.destination Row.duration Row.budget Row.type Row.content
       Row.created_at read_text option_map].
  now rewrite default_title_survives, (UTF16.toWellFormed_id d), (UTF16.toWellFormed_id bu),
    (UTF16.toWellFormed_id ty), (UTF16.toWellFormed_id content) by assumption.
Qed.

Lemma saveTrip_fresh uuid now s db c content row :
  reachable db ->
  App.itinerary s = Some (c :: content) ->
  selectById uuid db = None ->
  row = new_row uuid now (saveTrip_body s (c :: content)) ->
  exists records record,
    saveTrip uuid now true true s db
    = (App.setSavedTrips records (App.setSharedTripId (Some uuid) s), (db ++ [row])%list)
    /\ get_itineraries (db ++ [row]) = res_json (JsonRows records)
    /\ decode row = Ok record
    /\ In record records.
Proof.
  intros Hreach Hit Hfresh ->.
  set (row := new_row uuid now (saveTrip_body s (c :: content))).
  assert (Hreach' : reachable (db ++ [row])).
  { pose proof (reachable_post uuid now (saveTrip_body s (c :: content)) db Hreach) as H.
    now rewrite post_itineraries_fresh in H by assumption. }
  destruct (get_itineraries_reachable_In (db ++ [row]) row Hreach')
    as (records & record & Hget & Hdec & Hin);
    [apply in_app_iff; right; now left |].
  exists records, record.
  repeat split.
  - unfold saveTrip. rewrite Hit. unfold fetch. cbn [handle fst snd].
    rewrite post_itineraries_fresh by assumption. cbn [fst snd].
    unfold json, res_json. cbn [payload data_id].
    unfold fetchSavedTrips, fetch. cbn [handle fst]. fold row.
    rewrite Hget. reflexivity.
  - exact Hget.
  - exact Hdec.
  - exact Hin.
Qed.

(** X14: a trip saved from the page.  The page shows a non-empty
    itinerary, its form holds a destination, a duration (a number, or the
    [NaN] of an emptied field), a budget and a type, and these strings are
    well-formed UTF-16; the request is answered and the generated id is
    new.  Then [saveTrip] stores one row, with the itinerary as content,
    the details of the form ([NaN] as NULL) and the title [Viaggio a ]
    followed by the destination; the page then holds the new id as
    [sharedTripId] and, as [savedTrips], the new listing, in which the
    trip is found; opening that entry shows the itinerary and the details
    again, with [null] for a duration that was [NaN]. *)
Theorem saveTrip_stores_the_trip uuid now s db c content d du bu ty i a :
  reachable db ->
  App.itinerary s = Some (c :: content) ->
  selectById uuid db = None ->
  App.details s = TripDetails.mk (Some d) (Some du) (Some bu) (Some ty) i a ->
  isWellFormed d = true ->
  isWellFormed bu = true ->
  isWellFormed ty = true ->
  isWellFormed (c :: content) = true ->
  let stored := match du with Num n => Some n | NaN => None end in
  let row :=
    Row.mk uuid (Some (lit "Viaggio a " ++ d)%list) (Some d) stored (Some bu) (Some ty)
      (Some (JSON.stringify i)) (Some (JSON.stringify a)) (Some (c :: content)) now in
  let saved :=
    Itinerary.mk uuid (Some (lit "Viaggio a " ++ d)%list) (Some d) stored (Some bu) (Some ty)
      (Strings i) (Strings a) (Some (c :: content)) now in
  exists records,
    saveTrip uuid now true true s db
    = (App.setSavedTrips records (App.setSharedTripId (Some uuid) s), (db ++ [row])%list)
    /\ get_itineraries (db ++ [row]) = res_json (JsonRows records)
    /\ In saved records
    /\ (forall s',
          App.details (openSavedTrip saved s')
          = TripDetails.mk (Some d) (option_map Num stored) (Some bu) (Some ty) i a
          /\ App.itinerary (openSavedTrip saved s') = Some (c :: content)
          /\ App.sharedTripId (openSavedTrip saved s') = Some uuid
          /\ App.showSaved (openSavedTrip saved s') = false)
    /\ (forall n s', du = Num n -> App.details (openSavedTrip saved s') = App.details s).
Proof.
  intros Hreach Hit Hfresh Hd Wd Wbu Wty Wc stored row saved.
  destruct (saveTrip_fresh uuid now s db c content row Hreach Hit Hfresh)
    as (records & record & Hsave & Hget & Hdec & Hin).
  { symmetry. now apply saveTrip_row. }
  unfold row in Hdec. rewrite decode_saved_row in Hdec by assumption.
  injection Hdec as <-.
  exists records. split; [exact Hsave |]. split; [exact Hget |]. split; [exact Hin |].
  split.
  - intros s'. repeat split.
  - intros n s' ->. now rewrite Hd.
Qed.

Lemma saveTrip_stores_the_trip_witness :
  let saved :=
    Itinerary.mk uuid_a (Some (lit "Viaggio a Tokyo")) (Some (lit "Tokyo")) (Some 5)
      (Some (lit "medio")) (Some (lit "cultural")) (Strings [lit "Arte"])
      (Strings [lit "Musei"]) (Some (lit "# Day 1...")) noon in
  let emptied :=
    App.setDetails
      (TripDetails.mk (Some (lit "Tokyo")) (Some NaN) (Some (lit "medio"))
         (Some (lit "cultural")) [lit "Arte"] [lit "Musei"]) tokyo_page in
  let saved_emptied :=
    Itinerary.mk uuid_a (Some (lit "Viaggio a Tokyo")) (Some (lit "Tokyo")) None
      (Some (lit "medio")) (Some (lit "cultural")) (Strings [lit "Arte"])
      (Strings [lit "Musei"]) (Some (lit "# Day 1...")) noon in
  (reachable []
   /\ App.itinerary tokyo_page = Some (lit "# Day 1...")
   /\ selectById uuid_a [] = None
   /\ exists records,
        saveTrip uuid_a noon true true tokyo_page []
        = (App.setSavedTrips records (App.setSharedTripId (Some uuid_a) tokyo_page),
           [new_row uuid_a noon tokyo])
        /\ get_itineraries [new_row uuid_a noon tokyo] = res_json (JsonRows records)
        /\ In saved records
        /\ (forall s',
              App.details (openSavedTrip saved s') = App.details tokyo_page
              /\ App.itinerary (openSavedTrip saved s') = App.itinerary tokyo_page
              /\ App.sharedTripId (openSavedTrip saved s') = Some uuid_a
              /\ App.showSaved (openSavedTrip saved s') = false)
        /\ (forall n s', Num 5 = Num n ->
              App.details (openSavedTrip saved s') = App.details tokyo_page))
  /\ exists records,
       get_itineraries (snd (saveTrip uuid_a noon true true emptied []))
       = res_json (JsonRows records)
       /\ In saved_emptied records
       /\ forall s',
            TripDetails.duration (App.details (openSavedTrip saved_emptied s')) = None.
Proof.
  intros saved emptied saved_emptied.
  split.
  - split; [constructor |]. split; [reflexivity |]. split; [reflexivity |].
    exact (saveTrip_stores_the_trip uuid_a noon tokyo_page [] 35%N (lit " Day 1...")
             (lit "Tokyo") (Num 5) (lit "medio") (lit "cultural") [lit "Arte"] [lit "Musei"]
             reachable_empty eq_refl eq_refl eq_refl eq_refl eq_refl eq_refl eq_refl).
  - destruct (saveTrip_stores_the_trip uuid_a noon emptied [] 35%N (lit " Day 1...")
                (lit "Tokyo") NaN (lit "medio") (lit "cultural") [lit "Arte"] [lit "Musei"]
                reachable_empty eq_refl eq_refl eq_refl eq_refl eq_refl eq_refl eq_refl)
      as (records & Hsave & Hget & Hin & Hopen & _).
    exists records. rewrite Hsave. cbn [snd]. split; [exact Hget |].
    split; [exact Hin |].
    intros s'. exact (f_equal TripDetails.duration (proj1 (Hopen s'))).
Defined.

Lemma plain_id_nonempty id : plain_id id = true -> exists c id', id = c :: id'.
Proof. destruct id as [| c id']; [discriminate | eauto]. Qed.

(** X15: the shared link opens the saved trip.  After a [saveTrip] as in
    X14, a page that is mounted with the new id as its [trip] parameter, on
    the table as [saveTrip] left it, shows the itinerary and the details of
    the page that saved (with [null] for a duration that was [NaN]), is not
    loading, shows no error, holds the id as [sharedTripId] and the listing
    as [savedTrips]. *)
Theorem shared_link_opens_the_saved_trip uuid now s db c content d du bu ty i a :
  reachable db ->
  App.itinerary s = Some (c :: content) ->
  selectById uuid db = None ->
  plain_id uuid = true ->
  App.details s = TripDetails.mk (Some d) (Some du) (Some bu) (Some ty) i a ->
  isWellFormed d = true ->
  isWellFormed bu = true ->
  isWellFormed ty = true ->
  isWellFormed (c :: content) = true ->
  exists records,
    get_itineraries (snd (saveTrip uuid now true true s db)) = res_json (JsonRows records)
    /\ mount true true (App.sharedTripId (fst (saveTrip uuid now true true s db)))
         App.initial (snd (saveTrip uuid now true true s db))
       = App.mk
           (TripDetails.mk (Some d) (match du with Num n => Some (Num n) | NaN => None end)
              (Some bu) (Some ty) i a)
           (Some (c :: content)) false None records false (Some uuid)
    /\ (forall n, du = Num n ->
        mount true true (App.sharedTripId (fst (saveTrip uuid now true true s db)))
          App.initial (snd (saveTrip uuid now true true s db))
        = App.mk (App.details s) (App.itinerary s) false None records false (Some uuid)).
Proof.
  intros Hreach Hit Hfresh Hplain Hd Wd Wbu Wty Wc.
  destruct (saveTrip_fresh uuid now s db c content _ Hreach Hit Hfresh eq_refl)
    as (records & record & Hsave & Hget & _ & _).
  exists records. rewrite Hsave. cbn [fst snd]. split; [exact Hget |].
  cbn [App.sharedTripId App.setSavedTrips App.setSharedTripId].
  assert (Hmount :
    mount true true (Some uuid) App.initial
      (db ++ [new_row uuid now (saveTrip_body s (c :: content))])
    = App.mk
        (TripDetails.mk (Some d) (match du with Num n => Some (Num n) | NaN => None end)
           (Some bu) (Some ty) i a)
        (Some (c :: content)) false None records false (Some uuid)).
  { destruct (plain_id_nonempty uuid Hplain) as (u & uuid' & Huuid).
    unfold mount. rewrite Huuid at 1. rewrite <- Huuid.
    unfold fetchTrip, fetch. cbn [handle fst].
    unfold get_itinerary. rewrite selectById_new_row by assumption.
    rewrite (saveTrip_row uuid now s (c :: content) d du bu ty i a Hd).
    rewrite decode_saved_row by assumption.
    cbn [res_json ok status negb json payload andb Z.leb Z.compare
      Pos.compare Pos.compare_cont].
    unfold fetchSavedTrips, fetch. cbn [handle fst].
    rewrite <- (saveTrip_row uuid now s (c :: content) d du bu ty i a Hd).
    rewrite Hget. cbn. now destruct du. }
  split; [exact Hmount |].
  intros n ->. now rewrite Hmount, Hd, Hit.
Qed.

Lemma shared_link_opens_the_saved_trip_witness :
  reachable []
  /\ App.itinerary tokyo_page = Some (lit "# Day 1...")
  /\ selectById uuid_a [] = None
  /\ plain_id uuid_a = true
  /\ exists records,
       get_itineraries (snd (saveTrip uuid_a noon true true tokyo_page []))
       = res_json (JsonRows records)
       /\ mount true true (App.sharedTripId (fst (saveTrip uuid_a noon true true tokyo_page [])))
            App.initial (snd (saveTrip uuid_a noon true true tokyo_page []))
          = App.mk (App.details tokyo_page) (App.itinerary tokyo_page) false None
              records false (Some uuid_a)
       /\ (forall n, Num 5 = Num n ->
           mount true true
             (App.sharedTripId (fst (saveTrip uuid_a noon true true tokyo_page [])))
             App.initial (snd (saveTrip uuid_a noon true true tokyo_page []))
           = App.mk (App.details tokyo_page) (App.itinerary tokyo_page) false None
               records false (Some uuid_a)).
Proof.
  split; [constructor |]. do 3 (split; [reflexivity |]).
  exact (shared_link_opens_the_saved_trip uuid_a noon tokyo_page [] 35%N (lit " Day 1...")
           (lit "Tokyo") (Num 5) (lit "medio") (lit "cultural") [lit "Arte"] [lit "Musei"]
           reachable_empty eq_refl eq_refl eq_refl eq_refl eq_refl eq_refl eq_refl eq_refl).
Defined.

Lemma fetchTrip_not_found online id s db :
  online = false \/ selectById id db = None ->
  fetchTrip online id s db
  = App.mk (App.details s) (App.itinerary s) false
      (Some (lit "Impossibile caricare l'itinerario condiviso."))
      (App.savedTrips s) (App.showSaved s) (App.sharedTripId s).
Proof.
  intros [-> | Hnone]; [reflexivity |].
  unfold fetchTrip, fetch. destruct online; [| reflexivity].
  cbn [fst handle]. unfold get_itinerary. rewrite Hnone. reflexivity.
Qed.

(** X16: a trip that cannot be loaded.  [fetchTrip] always ends with
    [loading] false and never touches [savedTrips] and [showSaved]; when
    the request is not answered, or no row has the id, it sets the error
    message and leaves the details, the itinerary and [sharedTripId] as
    they were (for an id that is one plain path segment). *)
Theorem fetchTrip_failure online id s db :
  (App.loading (fetchTrip online id s db) = false
   /\ App.savedTrips (fetchTrip online id s db) = App.savedTrips s
   /\ App.showSaved (fetchTrip online id s db) = App.showSaved s)
  /\ (plain_id id = true ->
      online = false \/ selectById id db = None ->
      fetchTrip online id s db
      = App.mk (App.details s) (App.itinerary s) false
          (Some (lit "Impossibile caricare l'itinerario condiviso."))
          (App.savedTrips s) (App.showSaved s) (App.sharedTripId s)).
Proof.
  split.
  - unfold fetchTrip, fetch. destruct online; cbn [fst handle]; [| now cbn].
    destruct (negb (ok (get_itinerary id db))); [now cbn |].
    destruct (json (get_itinerary id db)) as [[| | row | | |] |]; try now cbn.
    destruct (details_of row); now cbn.
  - intros _. apply fetchTrip_not_found.
Qed.

Lemma fetchTrip_failure_witness :
  plain_id uuid_b = true
  /\ selectById uuid_b [new_row uuid_a noon tokyo] = None
  /\ fetchTrip true uuid_b tokyo_page [new_row uuid_a noon tokyo]
     = App.mk (App.details tokyo_page) (App.itinerary tokyo_page) false
         (Some (lit "Impossibile caricare l'itinerario condiviso."))
         (App.savedTrips tokyo_page) (App.showSaved tokyo_page)
         (App.sharedTripId tokyo_page).
Proof.
  split; [reflexivity |]. split; [reflexivity |].
  apply (proj2 (fetchTrip_failure true uuid_b tokyo_page [new_row uuid_a noon tokyo]));
    [reflexivity | right; reflexivity].
Defined.

(** X17: a deleted trip.  On a table the routes can produce, with both
    requests answered, [deleteTrip] removes the row, replaces [savedTrips]
    by the new listing, in which no trip has the id, and touches no other
    cell: the itinerary, the details and [sharedTripId] stay, also when
    they are those of the deleted trip, whose link then fails to load.
    The id is one plain path segment, as the ids of the listing are. *)
Theorem deleteTrip_forgets_the_trip id s db :
  reachable db ->
  plain_id id = true ->
  exists records,
    deleteTrip true true id s db = (App.setSavedTrips records s, deleteById id db)
    /\ get_itineraries (deleteById id db) = res_json (JsonRows records)
    /\ (forall trip, In trip records -> Itinerary.id trip <> id)
    /\ (forall s',
          App.error (fetchTrip true id s' (deleteById id db))
          = Some (lit "Impossibile caricare l'itinerario condiviso.")
          /\ App.itinerary (fetchTrip true id s' (deleteById id db)) = App.itinerary s').
Proof.
  intros Hreach _.
  pose proof (reachable_delete id db Hreach) as Hreach'.
  destruct (get_itineraries_reachable _ Hreach') as (records & Hget & Hdec).
  exists records. repeat split.
  - unfold deleteTrip, fetch. cbn [handle delete_itinerary fst snd].
    unfold fetchSavedTrips, fetch. cbn [handle fst]. now rewrite Hget.
  - exact Hget.
  - intros trip Hin Hid.
    assert (Hids : In id (List.map Row.id (selectAll (deleteById id db)))).
    { rewrite <- (Forall2_decode_ids _ _ Hdec), <- Hid. now apply in_map. }
    apply in_map_iff in Hids as (row & Hrow & Hinrow).
    apply (proj1 (In_selectAll row _)) in Hinrow.
    exact (proj1 (selectById_None _ _) (selectById_deleteById id db) row Hinrow Hrow).
  - now rewrite (fetchTrip_not_found true id s' (deleteById id db))
      by (right; apply selectById_deleteById).
  - now rewrite (fetchTrip_not_found true id s' (deleteById id db))
      by (right; apply selectById_deleteById).
Qed.

Lemma deleteTrip_forgets_the_trip_witness :
  let db := [new_row uuid_a noon tokyo; new_row uuid_b noon lisbona] in
  reachable db
  /\ plain_id uuid_a = true
  /\ exists records,
       deleteTrip true true uuid_a tokyo_page db
       = (App.setSavedTrips records tokyo_page, deleteById uuid_a db)
       /\ get_itineraries (deleteById uuid_a db) = res_json (JsonRows records)
       /\ (forall trip, In trip records -> Itinerary.id trip <> uuid_a)
       /\ (forall s',
             App.error (fetchTrip true uuid_a s' (deleteById uuid_a db))
             = Some (lit "Impossibile caricare l'itinerario condiviso.")
             /\ App.itinerary (fetchTrip true uuid_a s' (deleteById uuid_a db))
                = App.itinerary s').
Proof.
  intros db.
  assert (Hreach : reachable db)
    by exact (reachable_serve [POST uuid_a noon tokyo; POST uuid_b noon lisbona] []
                reachable_empty).
  split; [exact Hreach |]. split; [reflexivity |].
  exact (deleteTrip_forgets_the_trip uuid_a tokyo_page db Hreach eq_refl).
Defined.

(** X18: a trip that is not saved.  Without an itinerary on the page
    ([null] or the empty string) [saveTrip] sends nothing: the page and the
    table are the same.  With one, when the request is not answered or the
    generated id is already a key, the page gets the error message, keeps
    its [sharedTripId] and [savedTrips], and the table is the same. *)
Theorem saveTrip_failure uuid now online online' s db :
  (App.itinerary s = None \/ App.itinerary s = Some [] ->
   saveTrip uuid now online online' s db = (s, db))
  /\ (forall c content,
        App.itinerary s = Some (c :: content) ->
        online = false \/ selectById uuid db <> None ->
        saveTrip uuid now online online' s db
        = (App.setError (Some (lit "Errore durante il salvataggio.")) s, db)).
Proof.
  split.
  - unfold saveTrip. now intros [-> | ->].
  - intros c content Hit Hcase. unfold saveTrip. rewrite Hit.
    destruct online; [| reflexivity].
    destruct Hcase as [Hoff | Hkey]; [discriminate |].
    destruct (selectById uuid db) as [row |] eqn:Hsel; [| contradiction].
    unfold fetch. cbn [handle].
    rewrite (post_itineraries_key_taken uuid now (saveTrip_body s (c :: content)) db
               row Hsel).
    reflexivity.
Qed.

Lemma saveTrip_failure_witness :
  App.itinerary App.initial = None
  /\ saveTrip uuid_a noon true true App.initial [] = (App.initial, [])
  /\ App.itinerary tokyo_page = Some (lit "# Day 1...")
  /\ selectById uuid_a [new_row uuid_a noon lisbona] <> None
  /\ saveTrip uuid_a noon true true tokyo_page [new_row uuid_a noon lisbona]
     = (App.setError (Some (lit "Errore durante il salvataggio.")) tokyo_page,
        [new_row uuid_a noon lisbona]).
Proof.
  assert (Hkey : selectById uuid_a [new_row uuid_a noon lisbona] <> None) by discriminate.
  split; [reflexivity |].
  split; [apply (proj1 (saveTrip_failure uuid_a noon true true App.initial []));
          left; reflexivity |].
  split; [reflexivity |]. split; [exact Hkey |].
  apply (proj2 (saveTrip_failure uuid_a noon true true tokyo_page
                  [new_row uuid_a noon lisbona]) 35%N (lit " Day 1..."));
    [reflexivity | right; exact Hkey].
Defined.

(** ** The text of an encoded column *)

Module JSONText.
Import JSON.
Local Open Scope N_scope.


End JSONText.
